(** * claude-grep: transcript parser, literal prefilter, regex search and
    vector store, embedded from search.go, store.go and index.go.

    Go strings and byte slices are sequences of bytes; they are modelled by
    [string] (a list of 8-bit [ascii]).  Go [int] is modelled by [Z]:
    lengths and indices stay far inside the 64-bit range, and the sums
    that involve an option value wrap around as they do in Go.  A nil
    slice and an empty slice are both the empty list: the code only ever
    takes [len] of them or ranges over them. *)

From stdpp Require Import base option list strings gmap sorting.
From Stdlib Require Import Ascii ZArith Lia Permutation Sorted.
From Stdlib Require String.
From Corelib Require Import SpecFloat.

Set Warnings "-register-all".
Local Open Scope Z_scope.

(** ** Byte-string primitives of the Go library used by the sources *)

Module Bytes.

Definition LF : ascii := "010"%char.

(** [s[i:]] for [i <= len(s)]. *)
Fixpoint drop (i : nat) (s : string) : string :=
  match i, s with
  | O, _ => s
  | S i', String _ s' => drop i' s'
  | S _, EmptyString => EmptyString
  end.

(** [s[:n]] for [n <= len(s)]. *)
Fixpoint take (n : nat) (s : string) : string :=
  match n, s with
  | O, _ => EmptyString
  | S n', String c s' => String c (take n' s')
  | S _, EmptyString => EmptyString
  end.

(** [s[i:j]] for [i <= j <= len(s)]. *)
Definition slice (i j : nat) (s : string) : string := take (j - i) (drop i s).

(** [strings.HasPrefix]. *)
Fixpoint HasPrefix (s prefix : string) : bool :=
  match prefix, s with
  | EmptyString, _ => true
  | String p prefix', String c s' => Ascii.eqb c p && HasPrefix s' prefix'
  | String _ _, EmptyString => false
  end.

(** [strings.HasSuffix]. *)
Definition HasSuffix (s suffix : string) : bool :=
  (String.length suffix <=? String.length s)%nat
  && String.eqb (drop (String.length s - String.length suffix) s) suffix.

(** [strings.TrimSuffix]. *)
Definition TrimSuffix (s suffix : string) : string :=
  if HasSuffix s suffix
  then take (String.length s - String.length suffix) s
  else s.

(** [bytes.Contains] / [strings.Contains]. *)
Fixpoint Contains (s sub : string) : bool :=
  HasPrefix s sub
  || match s with
     | EmptyString => false
     | String _ s' => Contains s' sub
     end.

Fixpoint inCutset (c : ascii) (cutset : string) : bool :=
  match cutset with
  | EmptyString => false
  | String d cutset' => Ascii.eqb c d || inCutset c cutset'
  end.

(** [strings.TrimLeft] with an ASCII cutset. *)
Fixpoint TrimLeft (s cutset : string) : string :=
  match s with
  | EmptyString => EmptyString
  | String c s' => if inCutset c cutset then TrimLeft s' cutset else s
  end.

(** [strings.TrimRight] with an ASCII cutset. *)
Fixpoint TrimRight (s cutset : string) : string :=
  match s with
  | EmptyString => EmptyString
  | String c s' =>
      match TrimRight s' cutset with
      | EmptyString => if inCutset c cutset then EmptyString else String c EmptyString
      | t => String c t
      end
  end.

(** [strings.Trim] with an ASCII cutset. *)
Definition Trim (s cutset : string) : string :=
  TrimRight (TrimLeft s cutset) cutset.

(** [bytes.Split(data, sep)] for a one-byte separator: every field
    between separators, empty ones included; one field when there is no
    separator at all. *)
Fixpoint Split (data : string) (sep : ascii) : list string :=
  match data with
  | EmptyString => [EmptyString]
  | String c data' =>
      if Ascii.eqb c sep then EmptyString :: Split data' sep
      else match Split data' sep with
           | [] => [String c EmptyString]
           | f :: fs => String c f :: fs
           end
  end.

(** [strings.Join]. *)
Fixpoint Join (elems : list string) (sep : string) : string :=
  match elems with
  | [] => EmptyString
  | [e] => e
  | e :: elems' => e +:+ sep +:+ Join elems' sep
  end.

(** Appending one byte, as [strings.Builder.WriteByte] does. *)
Definition WriteByte (b : string) (c : ascii) : string :=
  b +:+ String c EmptyString.

(** Go's [>] on strings: byte-wise lexicographic order. *)
Definition gtb (s1 s2 : string) : bool := String.ltb s2 s1.

End Bytes.

(** ** Data model (search.go, store.go) *)

Module Message.
Record t := mk {
  Role : string;
  Type_ : string;
  Text : string;
  Timestamp : string;
  SessionID : string;
  Project : string;
  FilePath : string;
  MsgIndex : Z
}.

Definition withMsgIndex (m : t) (i : Z) : t :=
  mk (Role m) (Type_ m) (Text m) (Timestamp m) (SessionID m) (Project m)
     (FilePath m) i.
End Message.

Module Match.
Record t := mk {
  Message : Message.t;
  ContextBefore : list Message.t;
  ContextAfter : list Message.t;
  Similarity : spec_float
}.
End Match.

Module SearchOpts.
Record t := mk {
  Role : string;
  MaxResults : Z;
  MaxDays : Z;
  Before : Z;
  After : Z;
  ListOnly : bool
}.
End SearchOpts.

Module SearchStats.
Record t := mk {
  FilesTotal : Z;
  PrefilterSkipped : Z;
  RegexSearched : Z
}.
End SearchStats.

Module IndexEntry.
Record t := mk {
  SessionID : string;
  MsgIndex : Z;
  Role : string;
  Timestamp : string;
  Preview : string;
  FilePath : string;
  Vector : list spec_float
}.
End IndexEntry.

Module FileMetadata.
Record t := mk {
  FilePath : string;
  LastModified : Z
}.
End FileMetadata.

Module Index.
(** [Files] is a Go map: [None] is the nil map, [Some m] an initialised
    one. *)
Record t := mk {
  Entries : list IndexEntry.t;
  Files : option (gmap string FileMetadata.t);
  Project : string
}.
End Index.

(** A decoded JSON value, as [encoding/json] sees it.  A [json.RawMessage]
    is the still-encoded text of one such value; the sources only ever
    decode it again, so it is represented by the value itself.  The
    members of an object are kept in source order. *)
Inductive json :=
| JNull
| JBool (b : bool)
| JNumber (digits : string)
| JString (s : string)
| JArray (elems : list json)
| JObject (members : list (string * json)).

(** One callback invocation of [filepath.Walk]: either the entry could not
    be examined ([err != nil]) or its [os.FileInfo] is available. *)
Inductive WalkEntry :=
| WalkFailed (path : string)
| WalkInfo (path : string) (IsDir : bool) (ModTime : Z).

(** What [sort.Slice] requires of its [less] closure. *)
Record StrictWeakOrder {A : Type} (less : A → A → bool) : Prop := {
  swo_irrefl : ∀ a, less a a = false;
  swo_trans : ∀ a b c, less a b = true → less b c = true → less a c = true;
  swo_incomp : ∀ a b c, less a b = false → less b c = false → less a c = false
}.

(** No element is [less] than one placed before it. *)
Definition SortedBy {A : Type} (less : A → A → bool) : list A → Prop :=
  StronglySorted (λ a b, less b a = false).

(** ** The Go runtime and standard library, as far as the sources call it

    Everything the embedded functions obtain from outside the repository:
    Unicode case mapping and white space, [encoding/json], [regexp],
    [path/filepath], [os], [time], [sort] and [encoding/gob].  Times are
    instants counted in nanoseconds.  [sort.Slice] is not stable and its
    algorithm is the library's business; the sources may rely only on its
    contract, which the last two fields record. *)
Class Runtime := {
  ToLower : string → string;
  TrimSpace : string → string;
  Unmarshal : string → option json;
  Base : string → string;
  Dir : string → string;
  Ext : string → string;
  Join : list string → string;
  Regexp : Type;
  Compile : string → option Regexp;
  MatchString : Regexp → string → bool;
  ReadFile : string → option string;
  Open : string → option string;
  UserHomeDir : string;
  Walk : string → list WalkEntry * bool;
  Now : Z;
  AddDate : Z → Z → Z;
  Before : Z → Z → bool;
  ParseTime : string → string → option Z;
  gobDecode : string → Index.t → Index.t * bool;
  sortSlice : ∀ A : Type, (A → A → bool) → list A → list A;
  sortSlice_perm : ∀ A less (l : list A), sortSlice A less l ≡ₚ l;
  sortSlice_sorted : ∀ A less (l : list A),
    StrictWeakOrder less → SortedBy less (sortSlice A less l)
}.

(** ** Literal prefilter (search.go) *)

Definition isRegexMeta (c : ascii) : bool :=
  Ascii.eqb c "." || Ascii.eqb c "+" || Ascii.eqb c "*" || Ascii.eqb c "?" ||
  Ascii.eqb c "^" || Ascii.eqb c "$" || Ascii.eqb c "{" || Ascii.eqb c "}" ||
  Ascii.eqb c "[" || Ascii.eqb c "]" || Ascii.eqb c "(" || Ascii.eqb c ")" ||
  Ascii.eqb c "|" || Ascii.eqb c "\".

(** The [if current.Len() > len(best)] update of [longestLiteral]. *)
Definition keepLonger (best current : string) : string :=
  if (String.length best <? String.length current)%nat then current else best.

(** The loop of [longestLiteral] over the bytes not yet read.  A backslash
    followed by another byte contributes that byte and skips it; a
    trailing backslash falls through to the metacharacter case. *)
Fixpoint longestLiteral_loop (rest best current : string) : string :=
  match rest with
  | EmptyString => keepLonger best current
  | String c rest' =>
      match Ascii.eqb c "\", rest' with
      | true, String d rest'' =>
          longestLiteral_loop rest'' best (Bytes.WriteByte current d)
      | _, _ =>
          if isRegexMeta c
          then longestLiteral_loop rest' (keepLonger best current) EmptyString
          else longestLiteral_loop rest' best (Bytes.WriteByte current c)
      end
  end.

Definition longestLiteral (s : string) : string :=
  longestLiteral_loop s EmptyString EmptyString.

(** The depth scan of [stripOuterGroup]: [true] when the depth returns to
    zero before the last byte (index [i < n - 1]). *)
Fixpoint closesEarly (rest : string) (i n : nat) (depth : Z) : bool :=
  match rest with
  | EmptyString => false
  | String c rest' =>
      let depth' :=
        if Ascii.eqb c "(" then depth + 1
        else if Ascii.eqb c ")" then depth - 1
        else depth in
      if (depth' =? 0) && (Z.of_nat i <? Z.of_nat n - 1) then true
      else closesEarly rest' (S i) n depth'
  end.

(** The [for _, prefix := range ...] loop of [stripOuterGroup]. *)
Fixpoint stripGroupPrefix (inner : string) (prefixes : list string) : string :=
  match prefixes with
  | [] => inner
  | prefix :: prefixes' =>
      if Bytes.HasPrefix inner prefix
      then Bytes.drop (String.length prefix) inner
      else stripGroupPrefix inner prefixes'
  end.

Definition stripOuterGroup (s : string) : string :=
  let n := String.length s in
  if (n <? 2)%nat
     || negb (Bytes.HasPrefix s "(")
     || negb (Bytes.HasSuffix s ")")
  then s
  else if closesEarly s 0 n 0 then s
  else stripGroupPrefix (Bytes.slice 1 (n - 1) s) ["?:"; "?i:"; "?i"].

(** The loop of [splitTopLevelPipe]: [i] is the index of the first byte of
    [rest] in [s], [start] the index where the current part began. *)
Fixpoint splitTopLevelPipe_loop (rest s : string) (i start : nat) (depth : Z)
    (parts : list string) : list string :=
  match rest with
  | EmptyString => parts ++ [Bytes.drop start s]
  | String c rest' =>
      if Ascii.eqb c "(" then
        splitTopLevelPipe_loop rest' s (S i) start (depth + 1) parts
      else if Ascii.eqb c ")" then
        splitTopLevelPipe_loop rest' s (S i) start
          (if 0 <? depth then depth - 1 else depth) parts
      else if Ascii.eqb c "|" then
        if depth =? 0 then
          splitTopLevelPipe_loop rest' s (S i) (S i) depth
            (parts ++ [Bytes.slice start i s])
        else splitTopLevelPipe_loop rest' s (S i) start depth parts
      else splitTopLevelPipe_loop rest' s (S i) start depth parts
  end.

Definition splitTopLevelPipe (s : string) : list string :=
  splitTopLevelPipe_loop s s 0 0 0 [].

(** The literal of a branch, before lowering. *)
Definition branchLiteral (part : string) : string :=
  longestLiteral (Bytes.Trim part "()").

Section Prefilter.
Context `{Runtime}.

(** The loop of [extractPrefilterLiterals]; [None] is the early
    [return nil] taken at a branch without a literal. *)
Fixpoint extractPrefilterLiterals_loop (parts literals : list string)
    : option (list string) :=
  match parts with
  | [] => Some literals
  | part :: parts' =>
      let lit := longestLiteral (Bytes.Trim part "()") in
      if String.eqb lit EmptyString then None
      else extractPrefilterLiterals_loop parts' (literals ++ [ToLower lit])
  end.

(** [extractPrefilterLiterals]; the result [[]] is Go's [nil]. *)
Definition extractPrefilterLiterals (pattern : string) : list string :=
  let p := stripOuterGroup pattern in
  let parts := splitTopLevelPipe p in
  match extractPrefilterLiterals_loop parts [] with
  | None => []
  | Some literals =>
      if (length literals =? 0)%nat then [] else literals
  end.

(** The [for _, lit := range literals] loop of [prefilterMatch]. *)
Fixpoint anyContained (lower : string) (literals : list string) : bool :=
  match literals with
  | [] => false
  | lit :: literals' =>
      if Bytes.Contains lower lit then true else anyContained lower literals'
  end.

Definition prefilterMatch (data : string) (literals : list string) : bool :=
  if (length literals =? 0)%nat then true
  else anyContained (ToLower data) literals.

End Prefilter.

(** ** Transcript parser (search.go) *)

(** Lookup in a decoded JSON object used as a Go map: the last member with
    the key wins, as when [encoding/json] fills a map. *)
Fixpoint mapGet (members : list (string * json)) (key : string) : option json :=
  match members with
  | [] => None
  | (k, v) :: members' =>
      match mapGet members' key with
      | Some v' => Some v'
      | None => if String.eqb k key then Some v else None
      end
  end.

(** [json.Unmarshal(raw, &v)] for a [string] variable currently holding
    [cur]: the value afterwards and whether the error is nil.  JSON null
    is accepted and leaves the variable alone; any other non-string is a
    type error and leaves it alone too. *)
Definition unmarshalString (raw : json) (cur : string) : string * bool :=
  match raw with
  | JString s => (s, true)
  | JNull => (cur, true)
  | _ => (cur, false)
  end.

(** [json.Unmarshal(raw, &m)] for a [map[string]json.RawMessage] variable
    currently holding [cur] ([None] is the nil map). *)
Definition unmarshalObject (raw : json) (cur : option (list (string * json)))
    : option (list (string * json)) * bool :=
  match raw with
  | JObject members => (Some (default [] cur ++ members), true)
  | JNull => (None, true)
  | _ => (cur, false)
  end.

(** [json.Unmarshal(raw, &blocks)] for a [[]map[string]json.RawMessage]
    variable that is nil before the call: [None] when the error is not
    nil (the caller then ignores the variable). *)
Definition unmarshalBlocks (raw : json)
    : option (list (option (list (string * json)))) :=
  match raw with
  | JArray elems =>
      let decoded := map (λ e, unmarshalObject e None) elems in
      if forallb snd decoded then Some (map fst decoded) else None
  | JNull => Some []
  | _ => None
  end.

(** The body of the block loop of [extractText]: the text a block
    contributes, if any. *)
Definition blockText (block : option (list (string * json))) : option string :=
  let members := default [] block in
  let blockType :=
    match mapGet members "type" with
    | Some t => fst (unmarshalString t EmptyString)
    | None => EmptyString
    end in
  if negb (String.eqb blockType "text") then None
  else
    let text :=
      match mapGet members "text" with
      | Some t => fst (unmarshalString t EmptyString)
      | None => EmptyString
      end in
    if negb (String.eqb text EmptyString) then Some text else None.

Section Parser.
Context `{Runtime}.

(** The first part of [extractText]: which object ends up in [msgObj]. *)
Definition messageObject (raw : list (string * json))
    : option (list (string * json)) :=
  match mapGet raw "message" with
  | None => None
  | Some m =>
      let '(msgObj, ok) := unmarshalObject m None in
      if ok then msgObj
      else
        match mapGet raw "data" with
        | None => msgObj
        | Some d =>
            let '(dataObj, okd) := unmarshalObject d None in
            if okd then
              match mapGet (default [] dataObj) "message" with
              | Some dm => fst (unmarshalObject dm msgObj)
              | None => msgObj
              end
            else msgObj
        end
  end.

Definition extractText (raw : list (string * json)) : string :=
  match messageObject raw with
  | None => EmptyString
  | Some msgObj =>
      match mapGet msgObj "content" with
      | None => EmptyString
      | Some contentRaw =>
          let '(strContent, ok) := unmarshalString contentRaw EmptyString in
          if ok then TrimSpace strContent
          else
            match unmarshalBlocks contentRaw with
            | Some blocks => TrimSpace (Bytes.Join (omap blockText blocks) " ")
            | None => EmptyString
            end
      end
  end.

Definition extractSessionID (fpath : string) : string :=
  let base := Base fpath in
  let ext := Ext base in
  let id := Bytes.TrimSuffix base ext in
  if (12 <? String.length id)%nat then Bytes.take 12 id else id.

Definition extractProject (fpath : string) : string := Base (Dir fpath).

(** The part of the loop body of [parseJSONL] before the message is
    built: the role, time stamp and text of a line, or [None] where the
    body reaches a [continue]. *)
Definition decodeRecord (line : string) : option (string * string * string) :=
  if (String.length line =? 0)%nat then None
  else
    match Unmarshal line with
    | None => None
    | Some v =>
        let '(rawmap, ok) := unmarshalObject v None in
        if negb ok then None
        else
          let raw := default [] rawmap in
          let msgType :=
            match mapGet raw "type" with
            | Some t => fst (unmarshalString t EmptyString)
            | None => EmptyString
            end in
          if negb (String.eqb msgType "user") && negb (String.eqb msgType "assistant")
          then None
          else
            let timestamp :=
              match mapGet raw "timestamp" with
              | Some ts =>
                  let timestamp := fst (unmarshalString ts EmptyString) in
                  if (19 <? String.length timestamp)%nat
                  then Bytes.take 19 timestamp
                  else timestamp
              | None => EmptyString
              end in
            let text := extractText raw in
            if String.eqb text EmptyString then None
            else Some (msgType, timestamp, text)
    end.

(** The deduplicating tail of the loop body: [*prev = msg] when the last
    message has the same time stamp and role, [append] and [idx++]
    otherwise. *)
Definition keepMessage (st : list Message.t * Z) (msg : Message.t)
    : list Message.t * Z :=
  let '(messages, idx) := st in
  match last messages with
  | Some prev =>
      if String.eqb (Message.Timestamp prev) (Message.Timestamp msg)
         && String.eqb (Message.Role prev) (Message.Role msg)
      then (<[(length messages - 1)%nat := msg]> messages, idx)
      else (messages ++ [msg], idx + 1)
  | None => (messages ++ [msg], idx + 1)
  end.

(** One iteration of the line loop of [parseJSONL]. *)
Definition parseLine (fpath sessionID project : string)
    (st : list Message.t * Z) (line : string) : list Message.t * Z :=
  match decodeRecord line with
  | None => st
  | Some (msgType, timestamp, text) =>
      keepMessage st
        {| Message.Role := msgType; Message.Type_ := msgType;
           Message.Text := text; Message.Timestamp := timestamp;
           Message.SessionID := sessionID; Message.Project := project;
           Message.FilePath := fpath; Message.MsgIndex := snd st |}
  end.

(** The final [for i := range messages] loop. *)
Definition fixMsgIndex (messages : list Message.t) : list Message.t :=
  imap (λ i m, Message.withMsgIndex m (Z.of_nat i)) messages.

(** The line loop of [parseJSONL]: the final [messages] and [idx]. *)
Definition parseLines (fpath data : string) : list Message.t * Z :=
  let sessionID := extractSessionID fpath in
  let project := extractProject fpath in
  foldl (parseLine fpath sessionID project) ([], 0)
        (Bytes.Split data Bytes.LF).

Definition parseJSONL (fpath data : string) : list Message.t :=
  let '(messages, _) := parseLines fpath data in
  fixMsgIndex messages.

(** *** The parser as the specification words it

    The kept records of a file are the lines that pass every filter of
    the loop body, each as the message it yields, with the ordinal
    still unset. *)
Definition keptRecords (fpath data : string) : list Message.t :=
  (λ '(msgType, timestamp, text),
     {| Message.Role := msgType; Message.Type_ := msgType;
        Message.Text := text; Message.Timestamp := timestamp;
        Message.SessionID := extractSessionID fpath;
        Message.Project := extractProject fpath;
        Message.FilePath := fpath; Message.MsgIndex := 0 |})
  <$> omap decodeRecord (Bytes.Split data Bytes.LF).

End Parser.

(** Same time stamp and same role. *)
Definition sameTurn (a b : Message.t) : bool :=
  String.eqb (Message.Timestamp a) (Message.Timestamp b)
  && String.eqb (Message.Role a) (Message.Role b).

(** Deduplication as specified: a record that is immediately followed by
    one of the same turn is replaced by it, so of every run of consecutive
    records of one turn the last remains. *)
Fixpoint lastOfRuns (records : list Message.t) : list Message.t :=
  match records with
  | [] => []
  | a :: records' =>
      match records' with
      | b :: _ => if sameTurn a b then lastOfRuns records'
                  else a :: lastOfRuns records'
      | [] => [a]
      end
  end.

(** A message with its ordinal cleared. *)
Definition unnumbered (m : Message.t) : Message.t := Message.withMsgIndex m 0.

(** The list part of [keepMessage]. *)
Definition replaceOrAppend (messages : list Message.t) (msg : Message.t)
    : list Message.t :=
  match last messages with
  | Some prev =>
      if sameTurn prev msg
      then <[(length messages - 1)%nat := msg]> messages
      else messages ++ [msg]
  | None => messages ++ [msg]
  end.

(** ** Regex search engine (search.go) *)

(** Go's fixed-width signed integers: the value of a mathematical result
    after wrap-around. *)
Definition wrap (bits : Z) (z : Z) : Z :=
  (z + 2 ^ (bits - 1)) mod 2 ^ bits - 2 ^ (bits - 1).

Definition int (z : Z) : Z := wrap 64 z.
Definition int32 (z : Z) : Z := wrap 32 z.

(** [messages[lo:hi]] as the counting loops of the context windows read
    it: the elements with index [lo <= j < hi]. *)
Definition window (messages : list Message.t) (lo hi : Z) : list Message.t :=
  take (Z.to_nat (hi - lo)) (drop (Z.to_nat lo) messages).

Definition contextBefore (opts : SearchOpts.t) (messages : list Message.t)
    (i : Z) : list Message.t :=
  if 0 <? SearchOpts.Before opts then
    let start := int (i - SearchOpts.Before opts) in
    let start := if start <? 0 then 0 else start in
    window messages start i
  else [].

Definition contextAfter (opts : SearchOpts.t) (messages : list Message.t)
    (i : Z) : list Message.t :=
  if 0 <? SearchOpts.After opts then
    let end_ := int (int (i + SearchOpts.After opts) + 1) in
    let end_ := if Z.of_nat (length messages) <? end_
                then Z.of_nat (length messages) else end_ in
    window messages (i + 1) end_
  else [].

(** The zero value of [float32], left in [Similarity] by regex search. *)
Definition float32_zero : spec_float := S754_zero false.

(** The outcome of a call that returns [(matches, stats, err)] or panics. *)
Inductive SearchResult :=
| SearchError
| SearchPanic
| SearchOk (matches : list Match.t) (stats : SearchStats.t).

Section Search.
Context `{Runtime}.

(** The [for i, msg := range messages] loop of [searchFileTracked];
    [rest] is what remains to be visited, from index [i]. *)
Fixpoint searchMessages (re : Regexp) (opts : SearchOpts.t)
    (messages rest : list Message.t) (i : nat) (matches : list Match.t)
    : list Match.t :=
  match rest with
  | [] => matches
  | msg :: rest' =>
      if negb (String.eqb (SearchOpts.Role opts) "both")
         && negb (String.eqb (Message.Type_ msg) (SearchOpts.Role opts))
      then searchMessages re opts messages rest' (S i) matches
      else if negb (MatchString re (Message.Text msg))
      then searchMessages re opts messages rest' (S i) matches
      else
        let m :=
          {| Match.Message := msg;
             Match.ContextBefore := contextBefore opts messages (Z.of_nat i);
             Match.ContextAfter := contextAfter opts messages (Z.of_nat i);
             Match.Similarity := float32_zero |} in
        searchMessages re opts messages rest' (S i) (matches ++ [m])
  end.

(** [searchFileTracked]: the matches of one file and whether the
    prefilter skipped it. *)
Definition searchFileTracked (filepath : string) (re : Regexp)
    (prefilter : list string) (opts : SearchOpts.t) : list Match.t * bool :=
  match ReadFile filepath with
  | None => ([], false)
  | Some data =>
      if negb (prefilterMatch data prefilter) then ([], true)
      else
        let messages := parseJSONL filepath data in
        if (length messages =? 0)%nat then ([], false)
        else (searchMessages re opts messages messages 0 [], false)
  end.

(** The callback that [findSessionFiles] hands to [filepath.Walk]. *)
Definition keepSessionFile (cutoff : Z) (e : WalkEntry) : option string :=
  match e with
  | WalkFailed _ => None
  | WalkInfo path isDir modTime =>
      if isDir then None
      else if negb (Bytes.HasSuffix path ".jsonl") then None
      else if Before modTime cutoff then None
      else Some path
  end.

(** [findSessionFiles]: the files and whether the error is nil. *)
Definition findSessionFiles (searchPath : string) (maxDays : Z)
    : list string * bool :=
  let cutoff := AddDate Now (- maxDays) in
  let '(entries, ok) := Walk searchPath in
  (omap (keepSessionFile cutoff) entries, ok).

(** The comparison closure handed to [sort.Slice]. *)
Definition newerFirst (a b : Match.t) : bool :=
  Bytes.gtb (Message.Timestamp (Match.Message a))
            (Message.Timestamp (Match.Message b)).

(** What every worker computes, in the order of [files]. *)
Definition fileResults (re : Regexp) (pattern : string) (opts : SearchOpts.t)
    (files : list string) : list (list Match.t * bool) :=
  let prefilterLiterals := extractPrefilterLiterals pattern in
  map (λ fp, searchFileTracked fp re prefilterLiterals opts) files.

(** The results a worker sends on the channel: only non-empty ones. *)
Definition sent (results : list (list Match.t * bool)) : list (list Match.t) :=
  filter (λ ms : list Match.t, (0 < length ms)%nat) (map fst results).

(** The final value of the counter [pfSkipped]. *)
Definition countSkipped (results : list (list Match.t * bool)) : Z :=
  foldl (λ (n : Z) (r : list Match.t * bool),
           if snd r then int32 (n + 1) else n) 0 results.

(** Everything [regexSearch] does once the channel is closed: the
    receive loop has appended the results in their order of [arrival]. *)
Definition finish (opts : SearchOpts.t) (files : list string)
    (pfSkipped : Z) (arrival : list (list Match.t)) : SearchResult :=
  let allMatches := concat arrival in
  let allMatches := sortSlice Match.t newerFirst allMatches in
  let stats :=
    {| SearchStats.FilesTotal := Z.of_nat (length files);
       SearchStats.PrefilterSkipped := pfSkipped;
       SearchStats.RegexSearched := Z.of_nat (length files) - pfSkipped |} in
  if SearchOpts.MaxResults opts <? Z.of_nat (length allMatches) then
    if SearchOpts.MaxResults opts <? 0 then SearchPanic
    else SearchOk (take (Z.to_nat (SearchOpts.MaxResults opts)) allMatches) stats
  else SearchOk allMatches stats.

(** [regexSearch pattern searchPath opts r]: a call can end with [r].
    The workers run concurrently, so the results reach the channel in
    any order: [arrival] is any permutation of what was sent. *)
Inductive regexSearch (pattern searchPath : string) (opts : SearchOpts.t)
    : SearchResult → Prop :=
| regexSearch_compile_error :
    Compile ("(?i)" +:+ pattern) = None →
    regexSearch pattern searchPath opts SearchError
| regexSearch_walk_error re files :
    Compile ("(?i)" +:+ pattern) = Some re →
    findSessionFiles searchPath (SearchOpts.MaxDays opts) = (files, false) →
    regexSearch pattern searchPath opts SearchError
| regexSearch_fan_in re files arrival :
    Compile ("(?i)" +:+ pattern) = Some re →
    findSessionFiles searchPath (SearchOpts.MaxDays opts) = (files, true) →
    arrival ≡ₚ sent (fileResults re pattern opts files) →
    regexSearch pattern searchPath opts
      (finish opts files (countSkipped (fileResults re pattern opts files))
              arrival).

End Search.

(** The time stamp a match is ranked by. *)
Definition matchTime (m : Match.t) : string :=
  Message.Timestamp (Match.Message m).

(** Newest first, ties allowed: no later element has a greater time
    stamp. *)
Definition NewestFirst : list Match.t → Prop :=
  StronglySorted (λ a b, String.leb (matchTime b) (matchTime a) = true).

(** ** Vector store (store.go, index.go) *)

Section Store.
Context `{Runtime}.

Definition indexDir : string :=
  Join [UserHomeDir; ".claude"; "search-index"].

Definition indexPath (project : string) : string :=
  Join [indexDir; project +:+ ".gob"].

(** [&Index{Files: make(map[string]FileMetadata), Project: project}]. *)
Definition emptyIndex (project : string) : Index.t :=
  {| Index.Entries := []; Index.Files := Some ∅; Index.Project := project |}.

(** [loadIndex].  [gobDecode data idx] is [dec.Decode(idx)] on a stream
    holding [data]: the index as the decoder leaves it, and whether the
    error is nil. *)
Definition loadIndex (project : string) : Index.t :=
  let idx := emptyIndex project in
  match Open (indexPath project) with
  | None => idx
  | Some data =>
      let '(idx', ok) := gobDecode data idx in
      if ok then idx' else emptyIndex project
  end.

End Store.

(** [removeEntriesForFile] (index.go): the loop appends to [kept]. *)
Definition removeEntriesForFile (entries : list IndexEntry.t) (fpath : string)
    : list IndexEntry.t :=
  foldl (λ (kept : list IndexEntry.t) (e : IndexEntry.t),
           if negb (String.eqb (IndexEntry.FilePath e) fpath)
           then kept ++ [e] else kept)
        [] entries.

(** ** Semantic search: scoring and threshold (store.go) *)

Module Float.
(** IEEE 754 binary32 and binary64, on the standard library's
    specification of floating-point numbers. *)
Definition prec32 : Z := 24.
Definition emax32 : Z := 128.
Definition prec64 : Z := 53.
Definition emax64 : Z := 1024.

(** Conversion to the format [(prec, emax)], rounding to nearest even. *)
Definition convert (prec emax : Z) (x : spec_float) : spec_float :=
  match x with
  | S754_finite s m e => binary_normalize prec emax (cond_Zopp s (Zpos m)) e s
  | _ => x
  end.

Definition float64 : spec_float → spec_float := convert prec64 emax64.
Definition float32 : spec_float → spec_float := convert prec32 emax32.

Definition add64 := SFadd prec64 emax64.
Definition mul64 := SFmul prec64 emax64.
Definition div64 := SFdiv prec64 emax64.
Definition sqrt64 := SFsqrt prec64 emax64.

Definition zero : spec_float := S754_zero false.

(** The [float32] nearest to the decimal constant [n / d], for integers
    that a [float32] holds exactly. *)
Definition const32 (n d : Z) : spec_float :=
  SFdiv prec32 emax32 (binary_normalize prec32 emax32 n 0 false)
                      (binary_normalize prec32 emax32 d 0 false).

(** Go's [x > y] on floats: false when either is NaN. *)
Definition gtb (x y : spec_float) : bool := SFltb y x.
End Float.

(** The [for i := range a] loop of [cosineSimilarity], on the elements of
    [a] and [b] not yet visited. *)
Fixpoint cosineSums (a b : list spec_float) (dot normA normB : spec_float)
    : spec_float * spec_float * spec_float :=
  match a, b with
  | x :: a', y :: b' =>
      let x64 := Float.float64 x in
      let y64 := Float.float64 y in
      cosineSums a' b'
        (Float.add64 dot (Float.mul64 x64 y64))
        (Float.add64 normA (Float.mul64 x64 x64))
        (Float.add64 normB (Float.mul64 y64 y64))
  | _, _ => (dot, normA, normB)
  end.

Definition cosineSimilarity (a b : list spec_float) : spec_float :=
  if negb (length a =? length b)%nat || (length a =? 0)%nat then Float.zero
  else
    let '(dot, normA, normB) := cosineSums a b Float.zero Float.zero Float.zero in
    let denom := Float.mul64 (Float.sqrt64 normA) (Float.sqrt64 normB) in
    if SFeqb denom Float.zero then Float.zero
    else Float.float32 (Float.div64 dot denom).

(** The constant [0.3] of [semanticSearch], converted to [float32] as the
    comparison with a [float32] requires. *)
Definition minSimilarity : spec_float := Float.const32 3 10.

Module scored.
Record t := mk {
  entry : IndexEntry.t;
  similarity : spec_float
}.
End scored.

Section Semantic.
Context `{Runtime}.

(** [cutoff] of [semanticSearch]; [None] is the zero [time.Time]. *)
Definition semanticCutoff (opts : SearchOpts.t) : option Z :=
  if 0 <? SearchOpts.MaxDays opts
  then Some (AddDate Now (- SearchOpts.MaxDays opts))
  else None.

(** The role filter: [true] when the entry is skipped. *)
Definition roleSkips (opts : SearchOpts.t) (e : IndexEntry.t) : bool :=
  negb (String.eqb (SearchOpts.Role opts) "both")
  && negb (String.eqb (IndexEntry.Role e) (SearchOpts.Role opts)).

(** The time filter: [true] when the entry is skipped. *)
Definition ageSkips (cutoff : option Z) (e : IndexEntry.t) : bool :=
  match cutoff with
  | None => false
  | Some c =>
      if negb (String.eqb (IndexEntry.Timestamp e) EmptyString) then
        match ParseTime "2006-01-02T15:04:05" (IndexEntry.Timestamp e) with
        | Some t => Before t c
        | None => false
        end
      else false
  end.

(** The body of the [for _, entry := range idx.Entries] loop. *)
Definition scanEntry (opts : SearchOpts.t) (cutoff : option Z)
    (queryVec : list spec_float) (candidates : list scored.t)
    (e : IndexEntry.t) : list scored.t :=
  if roleSkips opts e then candidates
  else if ageSkips cutoff e then candidates
  else
    let sim := cosineSimilarity queryVec (IndexEntry.Vector e) in
    if Float.gtb sim minSimilarity
    then candidates ++ [{| scored.entry := e; scored.similarity := sim |}]
    else candidates.

Definition scanEntries (opts : SearchOpts.t) (cutoff : option Z)
    (queryVec : list spec_float) (entries : list IndexEntry.t)
    (candidates : list scored.t) : list scored.t :=
  foldl (scanEntry opts cutoff queryVec) candidates entries.

(** An entry that the role and age filters let through. *)
Definition passesFilters (opts : SearchOpts.t) (cutoff : option Z)
    (e : IndexEntry.t) : Prop :=
  roleSkips opts e = false ∧ ageSkips cutoff e = false.

End Semantic.

(** ** A small executable runtime

    One concrete [Runtime], used to run the embedded functions on
    concrete transcripts.  It agrees with the Go library on the fragment
    it covers: ASCII text, JSON without escapes, fractions or exponents,
    slash-separated paths, and regular expressions made of literal bytes
    with an optional [?] after a byte.  [sort.Slice] is the insertion sort
    the library runs on slices shorter than twelve elements. *)

Module Sample.

Definition quote : ascii := "034"%char.

Definition isUpper (c : ascii) : bool :=
  (65 <=? nat_of_ascii c)%nat && (nat_of_ascii c <=? 90)%nat.

Definition lowerByte (c : ascii) : ascii :=
  if isUpper c then ascii_of_nat (nat_of_ascii c + 32) else c.

Fixpoint ToLower (s : string) : string :=
  match s with
  | EmptyString => EmptyString
  | String c s' => String (lowerByte c) (ToLower s')
  end.

Definition TrimSpace (s : string) : string :=
  Bytes.Trim s (String " " (String "009" (String "010" (String "011"
               (String "012" (String "013" EmptyString)))))).

(** *** JSON *)

Definition isWs (c : ascii) : bool :=
  Ascii.eqb c " " || Ascii.eqb c "009" || Ascii.eqb c "010" || Ascii.eqb c "013".

Fixpoint skipWs (s : string) : string :=
  match s with
  | String c s' => if isWs c then skipWs s' else s
  | EmptyString => EmptyString
  end.

(** The body of a string literal up to its closing quote; escapes and
    control bytes are outside the fragment. *)
Fixpoint readString (s : string) : option (string * string) :=
  match s with
  | EmptyString => None
  | String c s' =>
      if Ascii.eqb c quote then Some (EmptyString, s')
      else if Ascii.eqb c "\" || (nat_of_ascii c <? 32)%nat then None
      else match readString s' with
           | Some (body, rest) => Some (String c body, rest)
           | None => None
           end
  end.

Definition isDigit (c : ascii) : bool :=
  (48 <=? nat_of_ascii c)%nat && (nat_of_ascii c <=? 57)%nat.

Fixpoint readDigits (s : string) : string * string :=
  match s with
  | String c s' =>
      if isDigit c then let '(ds, rest) := readDigits s' in (String c ds, rest)
      else (EmptyString, s)
  | EmptyString => (EmptyString, EmptyString)
  end.

Fixpoint parseValue (fuel : nat) (s : string) : option (json * string) :=
  match fuel with
  | O => None
  | S fuel' =>
      match skipWs s with
      | EmptyString => None
      | String c rest as s1 =>
          if Bytes.HasPrefix s1 "null" then Some (JNull, Bytes.drop 4 s1)
          else if Bytes.HasPrefix s1 "true" then Some (JBool true, Bytes.drop 4 s1)
          else if Bytes.HasPrefix s1 "false" then Some (JBool false, Bytes.drop 5 s1)
          else if Ascii.eqb c quote then
            match readString rest with
            | Some (body, rest') => Some (JString body, rest')
            | None => None
            end
          else if Ascii.eqb c "[" then
            match skipWs rest with
            | String "]" rest' => Some (JArray [], rest')
            | _ =>
                match parseElems fuel' rest with
                | Some (elems, rest') => Some (JArray elems, rest')
                | None => None
                end
            end
          else if Ascii.eqb c "{" then
            match skipWs rest with
            | String "}" rest' => Some (JObject [], rest')
            | _ =>
                match parseMembers fuel' rest with
                | Some (members, rest') => Some (JObject members, rest')
                | None => None
                end
            end
          else if isDigit c then
            let '(ds, rest') := readDigits s1 in Some (JNumber ds, rest')
          else None
      end
  end
with parseElems (fuel : nat) (s : string) : option (list json * string) :=
  match fuel with
  | O => None
  | S fuel' =>
      match parseValue fuel' s with
      | None => None
      | Some (v, rest) =>
          match skipWs rest with
          | String "," rest' =>
              match parseElems fuel' rest' with
              | Some (elems, rest'') => Some (v :: elems, rest'')
              | None => None
              end
          | String "]" rest' => Some ([v], rest')
          | _ => None
          end
      end
  end
with parseMembers (fuel : nat) (s : string)
    : option (list (string * json) * string) :=
  match fuel with
  | O => None
  | S fuel' =>
      match skipWs s with
      | String c rest =>
          if negb (Ascii.eqb c quote) then None
          else
            match readString rest with
            | None => None
            | Some (key, rest1) =>
                match skipWs rest1 with
                | String ":" rest2 =>
                    match parseValue fuel' rest2 with
                    | None => None
                    | Some (v, rest3) =>
                        match skipWs rest3 with
                        | String "," rest4 =>
                            match parseMembers fuel' rest4 with
                            | Some (members, rest5) =>
                                Some ((key, v) :: members, rest5)
                            | None => None
                            end
                        | String "}" rest4 => Some ([(key, v)], rest4)
                        | _ => None
                        end
                    end
                | _ => None
                end
            end
      | EmptyString => None
      end
  end.

Definition Unmarshal (data : string) : option json :=
  match parseValue (4 * String.length data + 4) data with
  | Some (v, rest) =>
      match skipWs rest with
      | EmptyString => Some v
      | _ => None
      end
  | None => None
  end.

(** The encoding that [json.Marshal] gives a value of the fragment. *)
Fixpoint Marshal (v : json) : string :=
  let quoted (s : string) := String quote s +:+ String quote EmptyString in
  match v with
  | JNull => "null"
  | JBool true => "true"
  | JBool false => "false"
  | JNumber ds => ds
  | JString s => quoted s
  | JArray elems =>
      "[" +:+ Bytes.Join (map Marshal elems) "," +:+ "]"
  | JObject members =>
      "{" +:+ Bytes.Join (map (λ kv, quoted (fst kv) +:+ ":" +:+ Marshal (snd kv))
                              members) "," +:+ "}"
  end.

(** One transcript line in the usual shape of the producer. *)
Definition recordLine (type timestamp content : string) : string :=
  Marshal (JObject [("type", JString type);
                    ("timestamp", JString timestamp);
                    ("message", JObject [("role", JString type);
                                         ("content", JString content)])]).

(** A transcript: its lines, each ended by a newline. *)
Fixpoint transcript (lines : list string) : string :=
  match lines with
  | [] => EmptyString
  | l :: lines' => l +:+ String Bytes.LF (transcript lines')
  end.

(** *** Paths *)

Fixpoint lastSlash (s : string) (i : nat) (found : option nat) : option nat :=
  match s with
  | EmptyString => found
  | String c s' => lastSlash s' (S i) (if Ascii.eqb c "/" then Some i else found)
  end.

Definition Base (path : string) : string :=
  match lastSlash path 0 None with
  | Some i => Bytes.drop (S i) path
  | None => path
  end.

Definition Dir (path : string) : string :=
  match lastSlash path 0 None with
  | Some i => Bytes.take i path
  | None => "."
  end.

Fixpoint lastDot (s : string) (i : nat) (found : option nat) : option nat :=
  match s with
  | EmptyString => found
  | String c s' =>
      lastDot s' (S i)
        (if Ascii.eqb c "." then Some i
         else if Ascii.eqb c "/" then None else found)
  end.

Definition Ext (path : string) : string :=
  match lastDot path 0 None with
  | Some i => Bytes.drop i path
  | None => EmptyString
  end.

Definition Join (elems : list string) : string := Bytes.Join elems "/".

(** *** Regular expressions *)

(** A compiled expression of the fragment: a sequence of bytes, each
    possibly optional, matched without regard to ASCII case. *)
Definition Regexp : Type := list (ascii * bool).

(** The atoms of a pattern without the leading flag group. *)
Fixpoint parseAtoms (s : string) : option Regexp :=
  match s with
  | EmptyString => Some []
  | String c s' =>
      if isRegexMeta c then None
      else
        match s' with
        | String "?" s'' =>
            match parseAtoms s'' with
            | Some atoms =>
                match s'' with
                | String "?" _ => None
                | _ => Some ((c, true) :: atoms)
                end
            | None => None
            end
        | _ =>
            match parseAtoms s' with
            | Some atoms => Some ((c, false) :: atoms)
            | None => None
            end
        end
  end.

Definition Compile (expr : string) : option Regexp :=
  if Bytes.HasPrefix expr "(?i)" then parseAtoms (Bytes.drop 4 expr) else None.

(** Whether some prefix of [text] matches the atoms. *)
Fixpoint matchHere (atoms : Regexp) (text : string) : bool :=
  match atoms with
  | [] => true
  | (c, optional) :: atoms' =>
      match text with
      | String d text' =>
          Ascii.eqb (lowerByte d) (lowerByte c) && matchHere atoms' text'
      | EmptyString => false
      end
      || (optional && matchHere atoms' text)
  end.

(** [MatchString]: a match may start anywhere. *)
Fixpoint MatchString (re : Regexp) (text : string) : bool :=
  matchHere re text
  || match text with
     | String _ text' => MatchString re text'
     | EmptyString => false
     end.

(** *** Files and time *)

(** A directory tree is given by its regular files, with contents. *)
Definition lookupFile (fs : list (string * string)) (path : string)
    : option string :=
  snd <$> List.find (λ f, String.eqb (fst f) path) fs.

Definition Walk (fs : list (string * string)) (root : string)
    : list WalkEntry * bool :=
  (map (λ f, WalkInfo (fst f) false 0)
       (List.filter (λ f, Bytes.HasPrefix (fst f) root) fs), true).

Definition day : Z := 86400 * 1000000000.

Definition AddDate (t days : Z) : Z := t + days * day.

(** *** Sorting *)

(** One pass of the inner loop of the library's insertion sort: [x]
    moves left past every neighbour it is [less] than.  The sorted
    prefix is held in reverse, nearest neighbour first. *)
Fixpoint sinkLeft {A : Type} (less : A → A → bool) (x : A)
    (revPrefix : list A) : list A :=
  match revPrefix with
  | [] => [x]
  | y :: revPrefix' =>
      if less x y then y :: sinkLeft less x revPrefix'
      else x :: revPrefix
  end.

Definition insertionSort (A : Type) (less : A → A → bool) (l : list A)
    : list A :=
  rev (foldl (λ revPrefix x, sinkLeft less x revPrefix) [] l).

End Sample.

(** ** Further string primitives of the Go library *)

Module Strings.

(** [strings.TrimPrefix]. *)
Definition TrimPrefix (s prefix : string) : string :=
  if Bytes.HasPrefix s prefix then Bytes.drop (String.length prefix) s else s.

(** The scan of [strings.ReplaceAll] for a non-empty [old]: occurrences
    are replaced from left to right and never overlap.  [skip] counts the
    bytes of the occurrence just replaced that are still to be passed. *)
Fixpoint ReplaceAll_scan (s old new : string) (skip : nat) : string :=
  match s with
  | EmptyString => EmptyString
  | String c s' =>
      match skip with
      | S skip' => ReplaceAll_scan s' old new skip'
      | O =>
          if Bytes.HasPrefix s old
          then new +:+ ReplaceAll_scan s' old new (String.length old - 1)
          else String c (ReplaceAll_scan s' old new 0)
      end
  end.

(** [strings.ReplaceAll(s, old, new)].  The sources call it with constant,
    non-empty [old] only; the insertion between runes that the library
    performs for an empty [old] is not modelled. *)
Definition ReplaceAll (s old new : string) : string :=
  match old with
  | EmptyString => s
  | _ => ReplaceAll_scan s old new 0
  end.

(** Whether every byte of [s] satisfies [p]. *)
Fixpoint all (p : ascii → bool) (s : string) : bool :=
  match s with
  | EmptyString => true
  | String c s' => p c && all p s'
  end.

End Strings.

(** ** Pattern and path helpers of the command line (main.go) *)

(** [normalizeBRE]: the loop over the five escaped operators. *)
Definition normalizeBRE (pattern : string) : string :=
  foldl (λ (pattern c : string), Strings.ReplaceAll pattern ("\" +:+ c) c)
        pattern ["|"; "("; ")"; "+"; "?"].

Definition encodePath (path : string) : string :=
  let path := Strings.TrimPrefix path "/" in
  "-" +:+ Strings.ReplaceAll path "/" "-".

(** ** Notions used to state what a search returns *)

Section Selection.
Context `{Runtime}.

(** A message that passes the role filter and that the expression
    matches: the two tests of the loop of [searchFileTracked], negated. *)
Definition selects (re : Regexp) (opts : SearchOpts.t) (msg : Message.t) : bool :=
  negb (negb (String.eqb (SearchOpts.Role opts) "both")
        && negb (String.eqb (Message.Type_ msg) (SearchOpts.Role opts)))
  && MatchString re (Message.Text msg).

End Selection.

(** The match built in [messages] at index [j]. *)
Definition matchAt (opts : SearchOpts.t) (messages : list Message.t) (j : nat)
    (m : Match.t) : Prop :=
  messages !! j = Some (Match.Message m)
  ∧ Match.ContextBefore m = contextBefore opts messages (Z.of_nat j)
  ∧ Match.ContextAfter m = contextAfter opts messages (Z.of_nat j)
  ∧ Match.Similarity m = float32_zero.

(** ** Incremental indexing (index.go) *)

(** What the indexing pass needs beyond [Runtime]: [os.Stat] (the
    modification time, or [None] on error), [time.Time.After], and the
    embedding service.  The service is an external process whose answers
    may change from call to call, so [Embed k text] is the answer to the
    k-th call of a pass; [None] is an error. *)
Class IndexRuntime := {
  Stat : string → option Z;
  After : Z → Z → bool;
  Embed : nat → string → option (list spec_float)
}.

Definition maxEmbedChars : nat := 2048.
Definition previewLen : nat := 200.

(** The state that the file loop of [runIndex] changes: the index of the
    project, the number of calls made to the embedding service, and the
    two counters. *)
Module IndexPass.
Record t := mk {
  idx : Index.t;
  calls : nat;
  totalNew : Z;
  totalSkipped : Z
}.
End IndexPass.

Section Indexing.
Context `{Runtime} `{IndexRuntime}.

(** The body of the [for _, msg := range messages] loop of [runIndex]:
    the entries of the index and the number of calls so far. *)
Definition embedMessage (fpath : string) (st : list IndexEntry.t * nat)
    (msg : Message.t) : list IndexEntry.t * nat :=
  let '(entries, calls) := st in
  let text := Message.Text msg in
  let text := if (maxEmbedChars <? String.length text)%nat
              then Bytes.take maxEmbedChars text else text in
  match Embed calls text with
  | None => (entries, S calls)
  | Some vec =>
      let preview := Message.Text msg in
      let preview := if (previewLen <? String.length preview)%nat
                     then Bytes.take previewLen preview else preview in
      (entries ++ [{| IndexEntry.SessionID := Message.SessionID msg;
                      IndexEntry.MsgIndex := Message.MsgIndex msg;
                      IndexEntry.Role := Message.Role msg;
                      IndexEntry.Timestamp := Message.Timestamp msg;
                      IndexEntry.Preview := preview;
                      IndexEntry.FilePath := fpath;
                      IndexEntry.Vector := vec |}],
       S calls)
  end.

(** The body of the file loop from [os.ReadFile] on, entered with the
    entries as the eviction left them.  [None] is the panic of an
    assignment to an entry of a nil map. *)
Definition parseAndIndex (st : IndexPass.t) (entries : list IndexEntry.t)
    (fpath : string) (modTime : Z) : option IndexPass.t :=
  let evicted :=
    {| IndexPass.idx :=
         {| Index.Entries := entries;
            Index.Files := Index.Files (IndexPass.idx st);
            Index.Project := Index.Project (IndexPass.idx st) |};
       IndexPass.calls := IndexPass.calls st;
       IndexPass.totalNew := IndexPass.totalNew st;
       IndexPass.totalSkipped := IndexPass.totalSkipped st |} in
  match ReadFile fpath with
  | None => Some evicted
  | Some data =>
      let messages := parseJSONL fpath data in
      if (length messages =? 0)%nat then Some evicted
      else
        let '(entries', calls') :=
          foldl (embedMessage fpath) (entries, IndexPass.calls st) messages in
        match Index.Files (IndexPass.idx st) with
        | None => None
        | Some files =>
            Some {| IndexPass.idx :=
                      {| Index.Entries := entries';
                         Index.Files :=
                           Some (<[fpath :=
                                     {| FileMetadata.FilePath := fpath;
                                        FileMetadata.LastModified := modTime |}]>
                                   files);
                         Index.Project := Index.Project (IndexPass.idx st) |};
                    IndexPass.calls := calls';
                    IndexPass.totalNew := int (IndexPass.totalNew st + 1);
                    IndexPass.totalSkipped := IndexPass.totalSkipped st |}
        end
  end.

(** [idx.Files[fpath]] read from a map that may be nil. *)
Definition fileMeta (idx : Index.t) (fpath : string) : option FileMetadata.t :=
  Index.Files idx ≫= (λ files, files !! fpath).

(** One iteration of the [for _, fpath := range files] loop of
    [runIndex]. *)
Definition indexFile (st : IndexPass.t) (fpath : string) : option IndexPass.t :=
  match Stat fpath with
  | None => Some st
  | Some modTime =>
      match fileMeta (IndexPass.idx st) fpath with
      | Some meta =>
          if negb (After modTime (FileMetadata.LastModified meta))
          then Some {| IndexPass.idx := IndexPass.idx st;
                       IndexPass.calls := IndexPass.calls st;
                       IndexPass.totalNew := IndexPass.totalNew st;
                       IndexPass.totalSkipped :=
                         int (IndexPass.totalSkipped st + 1) |}
          else parseAndIndex st
                 (removeEntriesForFile (Index.Entries (IndexPass.idx st)) fpath)
                 fpath modTime
      | None =>
          parseAndIndex st (Index.Entries (IndexPass.idx st)) fpath modTime
      end
  end.

(** The file loop over all files of a project. *)
Definition indexFiles (st : IndexPass.t) (files : list string)
    : option IndexPass.t :=
  foldl (λ (st : option IndexPass.t) (fpath : string),
           st ≫= (λ st, indexFile st fpath))
        (Some st) files.

(** The entries that an iteration for [fpath] starts from: without those
    of the file when the index has metadata for it. *)
Definition keptEntries (idx : Index.t) (fpath : string) : list IndexEntry.t :=
  match fileMeta idx fpath with
  | Some _ => removeEntriesForFile (Index.Entries idx) fpath
  | None => Index.Entries idx
  end.

(** Every entry of the index belongs to a file that the index has
    metadata for. *)
Definition recorded (idx : Index.t) : Prop :=
  ∀ e, e ∈ Index.Entries idx →
       is_Some (fileMeta idx (IndexEntry.FilePath e)).

End Indexing.

Section IndexingSpec.
Context `{IndexRuntime}.

(** The text sent to the embedding service for a message. *)
Definition embedText (msg : Message.t) : string :=
  if (maxEmbedChars <? String.length (Message.Text msg))%nat
  then Bytes.take maxEmbedChars (Message.Text msg) else Message.Text msg.

(** The entry stored for a message once its vector is known. *)
Definition entryFor (fpath : string) (msg : Message.t)
    (vec : list spec_float) : IndexEntry.t :=
  {| IndexEntry.SessionID := Message.SessionID msg;
     IndexEntry.MsgIndex := Message.MsgIndex msg;
     IndexEntry.Role := Message.Role msg;
     IndexEntry.Timestamp := Message.Timestamp msg;
     IndexEntry.Preview :=
       if (previewLen <? String.length (Message.Text msg))%nat
       then Bytes.take previewLen (Message.Text msg) else Message.Text msg;
     IndexEntry.FilePath := fpath;
     IndexEntry.Vector := vec |}.

(** The entries a file contributes when its messages are embedded by
    the calls number [calls], [calls + 1], ...: one for every message
    whose call succeeds, in order. *)
Fixpoint embeddedEntries (fpath : string) (calls : nat)
    (messages : list Message.t) : list IndexEntry.t :=
  match messages with
  | [] => []
  | msg :: messages' =>
      match Embed calls (embedText msg) with
      | Some vec => entryFor fpath msg vec
                    :: embeddedEntries fpath (S calls) messages'
      | None => embeddedEntries fpath (S calls) messages'
      end
  end.

End IndexingSpec.

Section IndexingSettled.
Context `{Runtime} `{IndexRuntime}.

(** A file that an iteration would leave alone in the index [idx]: it
    cannot be examined, or it is recorded and not modified since, or it
    has nothing to index and no entries to evict. *)
Definition settled (idx : Index.t) (fpath : string) : Prop :=
  Stat fpath = None
  ∨ (∃ modTime meta,
        Stat fpath = Some modTime
        ∧ fileMeta idx fpath = Some meta
        ∧ After modTime (FileMetadata.LastModified meta) = false)
  ∨ (∃ modTime,
        Stat fpath = Some modTime
        ∧ (∀ meta, fileMeta idx fpath = Some meta →
                   After modTime (FileMetadata.LastModified meta) = true)
        ∧ (ReadFile fpath = None
           ∨ ∃ data, ReadFile fpath = Some data ∧ parseJSONL fpath data = [])
        ∧ (is_Some (fileMeta idx fpath) →
           filter (λ e, IndexEntry.FilePath e = fpath) (Index.Entries idx) = [])).

End IndexingSettled.

(** ** Ranking and rehydration of semantic candidates *)

(** An index expression [l[j]]; [None] is the panic of an index out of
    range. *)
Definition goIndex {A : Type} (l : list A) (j : Z) : option A :=
  if j <? 0 then None else l !! Z.to_nat j.

Section SemanticResults.
Context `{Runtime}.

(** The comparison handed to [sort.Slice] in [semanticSearch]. *)
Definition bySimilarity (a b : scored.t) : bool :=
  Float.gtb (scored.similarity a) (scored.similarity b).

Definition semanticLimit (opts : SearchOpts.t) : Z :=
  if SearchOpts.MaxResults opts <=? 0 then 10 else SearchOpts.MaxResults opts.

(** Sorting and limiting of the candidates. *)
Definition rankCandidates (opts : SearchOpts.t) (candidates : list scored.t)
    : list scored.t :=
  let candidates := sortSlice scored.t bySimilarity candidates in
  let limit := semanticLimit opts in
  if limit <? Z.of_nat (length candidates)
  then take (Z.to_nat limit) candidates
  else candidates.

(** The message built from an index entry alone. *)
Definition entryMessage (e : IndexEntry.t) : Message.t :=
  {| Message.Role := IndexEntry.Role e;
     Message.Type_ := IndexEntry.Role e;
     Message.Text := IndexEntry.Preview e;
     Message.Timestamp := IndexEntry.Timestamp e;
     Message.SessionID := IndexEntry.SessionID e;
     Message.Project := extractProject (IndexEntry.FilePath e);
     Message.FilePath := IndexEntry.FilePath e;
     Message.MsgIndex := IndexEntry.MsgIndex e |}.

Definition withText (m : Message.t) (text : string) : Message.t :=
  {| Message.Role := Message.Role m;
     Message.Type_ := Message.Type_ m;
     Message.Text := text;
     Message.Timestamp := Message.Timestamp m;
     Message.SessionID := Message.SessionID m;
     Message.Project := Message.Project m;
     Message.FilePath := Message.FilePath m;
     Message.MsgIndex := Message.MsgIndex m |}.

(** [m.Message.Text = allMsgs[c.entry.MsgIndex].Text] under its guard. *)
Definition fullText (allMsgs : list Message.t) (i : Z) (msg : Message.t)
    : option Message.t :=
  if i <? Z.of_nat (length allMsgs)
  then full ← goIndex allMsgs i; Some (withText msg (Message.Text full))
  else Some msg.

(** The context before the entry: the loop runs from a start that is not
    negative and skips the indices past the end of the file. *)
Definition semanticBefore (opts : SearchOpts.t) (allMsgs : list Message.t)
    (i : Z) : list Message.t :=
  if 0 <? SearchOpts.Before opts then
    let start := int (i - SearchOpts.Before opts) in
    let start := if start <? 0 then 0 else start in
    window allMsgs start i
  else [].

(** The context after the entry: the loop stops at the end of the file
    and reads [allMsgs[j]] without a guard, so it panics when it starts
    at a negative index. *)
Definition semanticAfter (opts : SearchOpts.t) (allMsgs : list Message.t)
    (i : Z) : option (list Message.t) :=
  if 0 <? SearchOpts.After opts then
    let end_ := int (int (i + SearchOpts.After opts) + 1) in
    let end_ := if Z.of_nat (length allMsgs) <? end_
                then Z.of_nat (length allMsgs) else end_ in
    let first := int (i + 1) in
    if (first <? end_) && (first <? 0) then None
    else Some (window allMsgs first end_)
  else Some [].

(** The body of the [for _, c := range candidates] loop of
    [semanticSearch]: the match of a candidate, with the text and the
    context taken from the session file when it can be read.  [None] is
    a panic. *)
Definition hydrate (opts : SearchOpts.t) (c : scored.t) : option Match.t :=
  let e := scored.entry c in
  match ReadFile (IndexEntry.FilePath e) with
  | Some data =>
      let allMsgs := parseJSONL (IndexEntry.FilePath e) data in
      msg ← fullText allMsgs (IndexEntry.MsgIndex e) (entryMessage e);
      after ← semanticAfter opts allMsgs (IndexEntry.MsgIndex e);
      Some {| Match.Message := msg;
              Match.ContextBefore :=
                semanticBefore opts allMsgs (IndexEntry.MsgIndex e);
              Match.ContextAfter := after;
              Match.Similarity := scored.similarity c |}
  | None =>
      Some {| Match.Message := entryMessage e;
              Match.ContextBefore := [];
              Match.ContextAfter := [];
              Match.Similarity := scored.similarity c |}
  end.

(** [semanticSearch] from the candidates on: nothing for no candidate,
    else the matches of the ranked candidates in order.  [None] is a
    panic. *)
Definition semanticMatches (opts : SearchOpts.t) (candidates : list scored.t)
    : option (list Match.t) :=
  if (length candidates =? 0)%nat then Some []
  else mapM (hydrate opts) (rankCandidates opts candidates).

End SemanticResults.

(** * Properties *)

(** ** The insertion sort meets the contract of [sort.Slice] *)

Section InsertionSort.
Context {A : Type} (less : A → A → bool).

Lemma sinkLeft_perm (x : A) (revPrefix : list A) :
  Sample.sinkLeft less x revPrefix ≡ₚ x :: revPrefix.
Proof.
  induction revPrefix as [|y rp IH]; simpl; [done|].
  destruct (less x y); [|done].
  rewrite IH. apply Permutation_swap.
Qed.

Lemma insertion_fold_perm (l acc : list A) :
  foldl (λ revPrefix x, Sample.sinkLeft less x revPrefix) acc l ≡ₚ l ++ acc.
Proof.
  revert acc. induction l as [|x l IH]; intros acc; simpl; [done|].
  rewrite IH, sinkLeft_perm. by rewrite Permutation_middle.
Qed.

Lemma insertionSort_perm (l : list A) : Sample.insertionSort A less l ≡ₚ l.
Proof.
  unfold Sample.insertionSort.
  rewrite <- Permutation_rev, insertion_fold_perm. by rewrite app_nil_r.
Qed.

Hypothesis Hless : StrictWeakOrder less.

Lemma less_asym (a b : A) : less a b = true → less b a = false.
Proof.
  intros Hab. destruct (less b a) eqn:Hba; [|done].
  rewrite <- (swo_irrefl less Hless a). symmetry.
  by apply (swo_trans less Hless a b a).
Qed.

Lemma sinkLeft_sorted (x : A) (revPrefix : list A) :
  StronglySorted (λ y z, less y z = false) revPrefix →
  StronglySorted (λ y z, less y z = false) (Sample.sinkLeft less x revPrefix).
Proof.
  induction 1 as [|y rp Hrp IH Hy]; simpl.
  - repeat constructor.
  - destruct (less x y) eqn:Hxy.
    + constructor; [done|].
      rewrite sinkLeft_perm. constructor; [by apply less_asym | done].
    + constructor; [by constructor|].
      constructor; [done|].
      eapply Forall_impl; [exact Hy|]. simpl. intros z Hyz.
      by apply (swo_incomp less Hless x y z).
Qed.

Lemma insertion_fold_sorted (l acc : list A) :
  StronglySorted (λ y z, less y z = false) acc →
  StronglySorted (λ y z, less y z = false)
    (foldl (λ revPrefix x, Sample.sinkLeft less x revPrefix) acc l).
Proof.
  revert acc. induction l as [|x l IH]; intros acc Hacc; simpl; [done|].
  by apply IH, sinkLeft_sorted.
Qed.

Lemma StronglySorted_rev (R : A → A → Prop) (l : list A) :
  StronglySorted R l → StronglySorted (flip R) (rev l).
Proof.
  induction 1 as [|x l Hl IH Hx]; simpl; [constructor|].
  apply StronglySorted_app_2; [|done|repeat constructor].
  intros a b Ha Hb. apply list_elem_of_In, in_rev, list_elem_of_In in Ha.
  apply list_elem_of_singleton in Hb as ->.
  rewrite Forall_forall in Hx. by apply Hx.
Qed.

Lemma insertionSort_sorted (l : list A) :
  SortedBy less (Sample.insertionSort A less l).
Proof.
  unfold SortedBy, Sample.insertionSort.
  apply (StronglySorted_rev (λ y z, less y z = false)).
  apply insertion_fold_sorted. constructor.
Qed.

End InsertionSort.

(** The runtime over a directory tree [fs] of regular files.  No stored
    index decodes and no time stamp parses in it: the vector store starts
    fresh and the age filter keeps every entry. *)
Definition sampleRuntime (fs : list (string * string)) : Runtime :=
  {| ToLower := Sample.ToLower;
     TrimSpace := Sample.TrimSpace;
     Unmarshal := Sample.Unmarshal;
     Base := Sample.Base;
     Dir := Sample.Dir;
     Ext := Sample.Ext;
     Join := Sample.Join;
     Regexp := Sample.Regexp;
     Compile := Sample.Compile;
     MatchString := Sample.MatchString;
     ReadFile := Sample.lookupFile fs;
     Open := Sample.lookupFile fs;
     UserHomeDir := "/home/user";
     Walk := Sample.Walk fs;
     Now := 0;
     AddDate := Sample.AddDate;
     Before := Z.ltb;
     ParseTime := λ _ _, None;
     gobDecode := λ _ idx, (idx, false);
     sortSlice := Sample.insertionSort;
     sortSlice_perm := @insertionSort_perm;
     sortSlice_sorted := λ A less l Hless, insertionSort_sorted less Hless l |}.

(** ** Sample transcripts *)

Definition demoRoot : string := "/home/user/.claude/projects".

Definition demoPath : string :=
  "/home/user/.claude/projects/demo/session-0001.jsonl".

Definition otherPath : string :=
  "/home/user/.claude/projects/demo/session-0002.jsonl".

(** A kept record of the file [demoPath]. *)
Definition demoRecord (type timestamp text : string) : Message.t :=
  {| Message.Role := type; Message.Type_ := type; Message.Text := text;
     Message.Timestamp := timestamp; Message.SessionID := "session-0001";
     Message.Project := "demo"; Message.FilePath := demoPath;
     Message.MsgIndex := 0 |}.

Definition demoOpts (maxResults : Z) : SearchOpts.t :=
  {| SearchOpts.Role := "both"; SearchOpts.MaxResults := maxResults;
     SearchOpts.MaxDays := 7; SearchOpts.Before := 0; SearchOpts.After := 0;
     SearchOpts.ListOnly := false |}.

(** A turn written twice within one second, then the answer. *)
Definition editedTurn : string :=
  Sample.transcript
    [Sample.recordLine "user" "2024-05-01T10:00:00.120Z" "first draft";
     Sample.recordLine "user" "2024-05-01T10:00:00.480Z" "final text";
     Sample.recordLine "assistant" "2024-05-01T10:00:05.000Z" "noted"].

(** Three records of one role within one second. *)
Definition tripleTurn : string :=
  Sample.transcript
    [Sample.recordLine "user" "2024-05-01T10:00:00.100Z" "one";
     Sample.recordLine "user" "2024-05-01T10:00:00.200Z" "two";
     Sample.recordLine "user" "2024-05-01T10:00:00.300Z" "three"].

(** Question, answer and a second question, all within one second. *)
Definition quickExchange : string :=
  Sample.transcript
    [Sample.recordLine "user" "2024-05-01T10:00:00.100Z" "ping";
     Sample.recordLine "assistant" "2024-05-01T10:00:00.400Z" "pong";
     Sample.recordLine "user" "2024-05-01T10:00:00.900Z" "ping again"].

(** One session that mentions a color, in the American spelling. *)
Definition colorFiles : list (string * string) :=
  [(demoPath,
    Sample.transcript
      [Sample.recordLine "user" "2024-05-01T10:00:00.000Z"
                         "pick a color for the banner"])].


(** Two sessions with one match each, a minute apart. *)
Definition apartFiles : list (string * string) :=
  [(demoPath,
    Sample.transcript
      [Sample.recordLine "user" "2024-05-01T10:00:00.000Z" "deploy alpha"]);
   (otherPath,
    Sample.transcript
      [Sample.recordLine "user" "2024-05-01T10:01:00.000Z" "deploy beta"])].

(** The compiled form of a pattern of the fragment. *)
Definition demoRegexp (pattern : string) : Sample.Regexp :=
  default [] (Sample.parseAtoms pattern).

(** The per-file results of the search for [deploy], as sent. *)
Definition deployResults (fs : list (string * string)) (maxResults : Z)
    : list (list Match.t * bool) :=
  @fileResults (sampleRuntime fs) (demoRegexp "deploy") "deploy"
               (demoOpts maxResults) [demoPath; otherPath].

Definition apartNewest : list Match.t :=
  Eval vm_compute in
    take 1 (Sample.insertionSort Match.t newerFirst
              (concat (map fst (deployResults apartFiles 1)))).

Definition apartStats : SearchStats.t :=
  {| SearchStats.FilesTotal := 2; SearchStats.PrefilterSkipped := 0;
     SearchStats.RegexSearched := 2 |}.

(** ** Literal prefilter *)

Section PrefilterFacts.
Context `{Runtime}.

Lemma extractPrefilterLiterals_loop_weak (parts literals : list string) :
  Exists (λ part, branchLiteral part = EmptyString) parts →
  extractPrefilterLiterals_loop parts literals = None.
Proof.
  intros Hweak. revert literals.
  induction Hweak as [part parts Hpart | part parts _ IH]; intros literals; simpl.
  - fold (branchLiteral part). by rewrite Hpart.
  - fold (branchLiteral part).
    destruct (String.eqb (branchLiteral part) EmptyString); [done | apply IH].
Qed.

Lemma extractPrefilterLiterals_loop_strong (parts literals : list string) :
  Forall (λ part, branchLiteral part ≠ EmptyString) parts →
  extractPrefilterLiterals_loop parts literals
  = Some (literals ++ ((λ part, ToLower (branchLiteral part)) <$> parts)).
Proof.
  intros Hall. revert literals.
  induction Hall as [|part parts Hpart _ IH]; intros literals; simpl.
  - by rewrite app_nil_r.
  - fold (branchLiteral part).
    apply String.eqb_neq in Hpart. rewrite Hpart, IH.
    by rewrite <- app_assoc.
Qed.

(** Without a weak branch every branch contributes its literal, in
    order. *)
Lemma extractPrefilterLiterals_all_branches (pattern : string) :
  Forall (λ part, branchLiteral part ≠ EmptyString)
         (splitTopLevelPipe (stripOuterGroup pattern)) →
  extractPrefilterLiterals pattern
  = (λ part, ToLower (branchLiteral part))
    <$> splitTopLevelPipe (stripOuterGroup pattern).
Proof.
  intros Hall. unfold extractPrefilterLiterals.
  rewrite (extractPrefilterLiterals_loop_strong _ [] Hall). simpl.
  by destruct (_ <$> _).
Qed.

(** A file without any of the literals is skipped before parsing,
    whatever the compiled expression would match in it. *)
Lemma searchFileTracked_skips (filepath data : string) (re : Regexp)
    (prefilter : list string) (opts : SearchOpts.t) :
  ReadFile filepath = Some data →
  prefilterMatch data prefilter = false →
  searchFileTracked filepath re prefilter opts = ([], true).
Proof. intros Hread Hpf. unfold searchFileTracked. by rewrite Hread, Hpf. Qed.


End PrefilterFacts.


(** *** The repository's own tests of the prefilter, on the embedding *)

Example TestExtractPrefilterLiterals :
  map (@extractPrefilterLiterals (sampleRuntime []))
      ["openclaw"; "(openclaw|heartbeat)"; "openclaw|heartbeat";
       "(UPS|power supply|APC)"; "open.claw"; "(?:foo|bar)"; "(?i:foo|bar)";
       ".*"; "(a|b)"; "(openclaw|.*)"; "open\.claw"]
  = [["openclaw"]; ["openclaw"; "heartbeat"]; ["openclaw"; "heartbeat"];
     ["ups"; "power supply"; "apc"]; ["open"]; ["foo"; "bar"]; ["foo"; "bar"];
     []; ["a"; "b"]; []; ["open.claw"]].
Proof. vm_compute. reflexivity. Qed.

Example TestPrefilterMatch :
  map (@prefilterMatch (sampleRuntime [])
         "The OpenClaw framework has a Heartbeat feature")
      [[]; ["openclaw"]; ["zzzzz"]; ["openclaw"; "gateway"];
       ["gateway"; "heartbeat"]; ["gateway"; "zzzzz"]]
  = [true; true; false; true; true; false].
Proof. vm_compute. reflexivity. Qed.

Example TestStripOuterGroup :
  map stripOuterGroup
      ["(a|b)"; "(?:a|b)"; "(?i:a|b)"; "(a|b)(c|d)"; "abc"; "(abc)"]
  = ["a|b"; "a|b"; "a|b"; "(a|b)(c|d)"; "abc"; "abc"].
Proof. vm_compute. reflexivity. Qed.

Example TestLongestLiteral :
  map longestLiteral
      ["openclaw"; "open.claw"; "a.*long_literal"; ".*"; "abc\.def"]
  = ["openclaw"; "open"; "long_literal"; ""; "abc.def"].
Proof. vm_compute. reflexivity. Qed.

(** The scenario of the specification: [(ups|heartbeat)] lets a file that
    mentions a Heartbeat through and stops one with neither word. *)
Example prefilter_heartbeat :
  @prefilterMatch (sampleRuntime []) "The system sent a Heartbeat"
     (@extractPrefilterLiterals (sampleRuntime []) "(ups|heartbeat)") = true
  ∧ @prefilterMatch (sampleRuntime []) "Nothing to see here"
      (@extractPrefilterLiterals (sampleRuntime []) "(ups|heartbeat)") = false.
Proof. vm_compute. done. Qed.

(** ** Vector store *)

Lemma removeEntriesForFile_fold (entries kept : list IndexEntry.t)
    (fpath : string) :
  foldl (λ (kept : list IndexEntry.t) (e : IndexEntry.t),
           if negb (String.eqb (IndexEntry.FilePath e) fpath)
           then kept ++ [e] else kept)
        kept entries
  = kept ++ filter (λ e, IndexEntry.FilePath e ≠ fpath) entries.
Proof.
  revert kept. induction entries as [|e entries IH]; intros kept; simpl.
  - by rewrite app_nil_r.
  - rewrite IH, filter_cons.
    destruct (String.eqb_spec (IndexEntry.FilePath e) fpath) as [Heq|Hne]; simpl.
    + by rewrite decide_False by (by intros []).
    + rewrite decide_True by done. by rewrite <- app_assoc.
Qed.

(** C9. Eviction frame property: the result holds exactly the entries
    whose [FilePath] differs from the given path, in their original
    order and unchanged; nothing of another file is dropped, reordered or
    altered. *)
Theorem removeEntriesForFile_keeps_other_files (entries : list IndexEntry.t)
    (fpath : string) :
  removeEntriesForFile entries fpath
  = filter (λ e, IndexEntry.FilePath e ≠ fpath) entries.
Proof. unfold removeEntriesForFile. by rewrite removeEntriesForFile_fold. Qed.

(** The entries of any other file are the same before and after. *)
Lemma removeEntriesForFile_other_file (entries : list IndexEntry.t)
    (fpath other : string) :
  other ≠ fpath →
  filter (λ e, IndexEntry.FilePath e = other)
         (removeEntriesForFile entries fpath)
  = filter (λ e, IndexEntry.FilePath e = other) entries.
Proof.
  intros Hne. unfold removeEntriesForFile. rewrite removeEntriesForFile_fold.
  simpl. induction entries as [|e entries IH]; [done|].
  rewrite !filter_cons.
  destruct (decide (IndexEntry.FilePath e = fpath)) as [Heq|Hne'].
  - rewrite decide_False by (by intros []).
    rewrite decide_False by congruence. done.
  - rewrite decide_True by done. rewrite filter_cons.
    destruct (decide (IndexEntry.FilePath e = other)); by rewrite IH.
Qed.

(** Nothing of the evicted file remains. *)
Lemma removeEntriesForFile_evicts (entries : list IndexEntry.t)
    (fpath : string) (e : IndexEntry.t) :
  e ∈ removeEntriesForFile entries fpath → IndexEntry.FilePath e ≠ fpath.
Proof.
  unfold removeEntriesForFile. rewrite removeEntriesForFile_fold. simpl.
  rewrite list_elem_of_filter. by intros [? _].
Qed.

Section StoreFacts.
Context `{Runtime}.

(** C7. Load-on-corruption fallback: for every project name [loadIndex]
    yields an index, never an error or nil.  It is the decoded one when
    the stored file opens and decodes; when the file does not open, or
    the decoder reports an error, it is a fresh empty index with an
    initialised [Files] map and the given project name, not what the
    decoder left behind. *)
Theorem loadIndex_falls_back_to_empty (project : string) :
  (∃ data idx,
      Open (indexPath project) = Some data
      ∧ gobDecode data (emptyIndex project) = (idx, true)
      ∧ loadIndex project = idx)
  ∨ ((Open (indexPath project) = None
      ∨ ∃ data partial,
          Open (indexPath project) = Some data
          ∧ gobDecode data (emptyIndex project) = (partial, false))
     ∧ loadIndex project
       = {| Index.Entries := []; Index.Files := Some ∅;
            Index.Project := project |}).
Proof.
  unfold loadIndex.
  destruct (Open (indexPath project)) as [data|] eqn:Hopen.
  - destruct (gobDecode data (emptyIndex project)) as [idx ok] eqn:Hdec.
    destruct ok.
    + left. by exists data, idx.
    + right. split; [|done]. right. by exists data, idx.
  - right. split; [by left | done].
Qed.

End StoreFacts.

(** ** Semantic search: the similarity threshold *)

Lemma SFcompare_antisym (x y : spec_float) :
  SFcompare x y = CompOpp <$> SFcompare y x.
Proof.
  destruct x as [[]|[]| |[] m1 e1], y as [[]|[]| |[] m2 e2]; simpl; try done.
  all: rewrite (Z.compare_antisym e1 e2); destruct (e1 ?= e2); simpl; try done.
  all: change (Pos.compare_cont Eq m1 m2) with (Pos.compare m1 m2).
  all: change (Pos.compare_cont Eq m2 m1) with (Pos.compare m2 m1).
  all: rewrite (Pos.compare_antisym m1 m2); by destruct (m1 ?= m2)%positive.
Qed.

(** Go's [>] holds exactly when the comparison says "greater": never for
    equal values, never when a NaN is involved. *)
Lemma Float_gtb_compare (x y : spec_float) :
  Float.gtb x y = true ↔ SFcompare x y = Some Gt.
Proof.
  unfold Float.gtb, SFltb. rewrite (SFcompare_antisym x y).
  destruct (SFcompare y x) as [[]|]; simpl; split; congruence.
Qed.

Section SemanticFacts.
Context `{Runtime}.

Lemma scanEntries_filter (opts : SearchOpts.t) (cutoff : option Z)
    (queryVec : list spec_float) (entries : list IndexEntry.t)
    (candidates : list scored.t) :
  scanEntries opts cutoff queryVec entries candidates
  = candidates
    ++ ((λ e, {| scored.entry := e;
                 scored.similarity :=
                   cosineSimilarity queryVec (IndexEntry.Vector e) |})
        <$> filter (λ e, passesFilters opts cutoff e
                         ∧ Float.gtb (cosineSimilarity queryVec (IndexEntry.Vector e))
                                     minSimilarity = true)
                   entries).
Proof.
  unfold scanEntries, passesFilters. revert candidates.
  induction entries as [|e entries IH]; intros candidates; cbn [foldl].
  - by rewrite app_nil_r.
  - rewrite IH, filter_cons. unfold scanEntry.
    destruct (roleSkips opts e) eqn:Hrole.
    { by rewrite decide_False by (by intros [[? ?] ?]). }
    destruct (ageSkips cutoff e) eqn:Hage.
    { by rewrite decide_False by (by intros [[? ?] ?]). }
    destruct (Float.gtb _ minSimilarity) eqn:Hsim.
    + rewrite decide_True by done. cbn [fmap list_fmap]. by rewrite <- app_assoc.
    + by rewrite decide_False by (by intros [_ ?]).
Qed.

(** C8. Strict similarity threshold: the candidates of a scan are exactly
    the entries that pass the role and age filters and whose cosine
    similarity to the query compares strictly greater than the threshold,
    the [float32] constant 0.3, each with its similarity, in index order.
    A similarity of 0.29 or of exactly 0.30 is not kept; 0.31 is. *)
Theorem semantic_threshold_is_strict (opts : SearchOpts.t) (cutoff : option Z)
    (queryVec : list spec_float) (entries : list IndexEntry.t) :
  scanEntries opts cutoff queryVec entries []
  = ((λ e, {| scored.entry := e;
              scored.similarity :=
                cosineSimilarity queryVec (IndexEntry.Vector e) |})
     <$> filter (λ e, passesFilters opts cutoff e
                      ∧ SFcompare (cosineSimilarity queryVec (IndexEntry.Vector e))
                                  minSimilarity = Some Gt)
                entries)
  ∧ minSimilarity = Float.const32 30 100
  ∧ Float.gtb (Float.const32 29 100) minSimilarity = false
  ∧ Float.gtb (Float.const32 30 100) minSimilarity = false
  ∧ Float.gtb (Float.const32 31 100) minSimilarity = true.
Proof.
  split; [|by vm_compute].
  rewrite scanEntries_filter. cbn [app]. f_equal.
  apply list_filter_iff. intros e.
  by rewrite Float_gtb_compare.
Qed.

End SemanticFacts.

(** ** Transcript parser *)

Lemma sameTurn_true (a b : Message.t) :
  sameTurn a b = true
  ↔ Message.Timestamp a = Message.Timestamp b ∧ Message.Role a = Message.Role b.
Proof.
  unfold sameTurn. rewrite andb_true_iff, !String.eqb_eq. done.
Qed.

Lemma sameTurn_left (a b c : Message.t) :
  sameTurn a b = true → sameTurn a c = sameTurn b c.
Proof.
  intros [Hts Hrole]%sameTurn_true. unfold sameTurn. by rewrite Hts, Hrole.
Qed.

Lemma sameTurn_right (a b c : Message.t) :
  sameTurn a b = true → sameTurn c a = sameTurn c b.
Proof.
  intros [Hts Hrole]%sameTurn_true. unfold sameTurn. by rewrite Hts, Hrole.
Qed.

Lemma fst_keepMessage (messages : list Message.t) (idx : Z) (msg : Message.t) :
  (keepMessage (messages, idx) msg).1 = replaceOrAppend messages msg.
Proof.
  unfold keepMessage, replaceOrAppend, sameTurn.
  destruct (last messages); [|done]. by destruct (_ && _).
Qed.

Lemma replaceOrAppend_unnumbered (messages : list Message.t) (msg : Message.t) :
  unnumbered <$> replaceOrAppend messages msg
  = replaceOrAppend (unnumbered <$> messages) (unnumbered msg).
Proof.
  unfold replaceOrAppend. rewrite fmap_last, length_fmap.
  destruct (last messages) as [prev|]; simpl.
  - change (sameTurn (unnumbered prev) (unnumbered msg)) with (sameTurn prev msg).
    destruct (sameTurn prev msg).
    + by rewrite list_fmap_insert.
    + by rewrite fmap_app.
  - by rewrite fmap_app.
Qed.

(** The loop invariant of deduplication: with a last message [m] in
    place, the records still to come are merged into it or appended
    exactly as [lastOfRuns] says. *)
Lemma replaceOrAppend_lastOfRuns (records front : list Message.t)
    (m : Message.t) :
  foldl replaceOrAppend (front ++ [m]) records
  = front ++ lastOfRuns (m :: records).
Proof.
  revert front m. induction records as [|r records IH]; intros front m.
  - done.
  - cbn [foldl]. unfold replaceOrAppend at 2. rewrite last_snoc.
    change (lastOfRuns (m :: r :: records))
      with (if sameTurn m r then lastOfRuns (r :: records)
            else m :: lastOfRuns (r :: records)).
    destruct (sameTurn m r).
    + rewrite length_app. simpl.
      replace (length front + 1 - 1)%nat with (length front + 0)%nat by lia.
      rewrite insert_app_r. simpl. apply IH.
    + rewrite IH. by rewrite <- app_assoc.
Qed.

Lemma foldl_replaceOrAppend_nil (records : list Message.t) :
  foldl replaceOrAppend [] records = lastOfRuns records.
Proof.
  destruct records as [|r records]; [done|].
  cbn [foldl]. apply (replaceOrAppend_lastOfRuns records [] r).
Qed.

Lemma fixMsgIndex_unnumbered (messages : list Message.t) :
  fixMsgIndex (unnumbered <$> messages) = fixMsgIndex messages.
Proof. unfold fixMsgIndex. rewrite imap_fmap. by apply imap_ext. Qed.

Lemma unnumbered_fixMsgIndex (messages : list Message.t) :
  unnumbered <$> fixMsgIndex messages = unnumbered <$> messages.
Proof.
  unfold fixMsgIndex. rewrite fmap_imap.
  rewrite <- (imap_const unnumbered). by apply imap_ext.
Qed.

Lemma lastOfRuns_sublist (records : list Message.t) :
  lastOfRuns records `sublist_of` records.
Proof.
  induction records as [|a [|b records] IH]; [done|done|].
  change (lastOfRuns (a :: b :: records))
    with (if sameTurn a b then lastOfRuns (b :: records)
          else a :: lastOfRuns (b :: records)).
  destruct (sameTurn a b); [by apply sublist_cons | by apply sublist_skip].
Qed.

Lemma lastOfRuns_snoc (records : list Message.t) (a : Message.t) :
  ∃ front, lastOfRuns (records ++ [a]) = front ++ [a].
Proof.
  induction records as [|c [|d records] IH].
  - by exists [].
  - simpl. destruct (sameTurn c a); [by exists [] | by exists [c]].
  - destruct IH as [front IH].
    change (lastOfRuns ((c :: d :: records) ++ [a]))
      with (if sameTurn c d then lastOfRuns ((d :: records) ++ [a])
            else c :: lastOfRuns ((d :: records) ++ [a])).
    rewrite IH. destruct (sameTurn c d); [by exists front | by exists (c :: front)].
Qed.

(** A change of turn cuts the input: what precedes it and what follows it
    are deduplicated independently. *)
Lemma lastOfRuns_cut (pre post : list Message.t) (a x : Message.t) :
  sameTurn a x = false →
  lastOfRuns (pre ++ a :: x :: post)
  = lastOfRuns (pre ++ [a]) ++ lastOfRuns (x :: post).
Proof.
  intros Hax. induction pre as [|c [|d pre] IH].
  - simpl. by rewrite Hax.
  - change (lastOfRuns ([c] ++ a :: x :: post))
      with (if sameTurn c a then lastOfRuns (a :: x :: post)
            else c :: lastOfRuns (a :: x :: post)).
    change (lastOfRuns ([c] ++ [a]))
      with (if sameTurn c a then [a] else [c; a]).
    change (lastOfRuns (a :: x :: post))
      with (if sameTurn a x then lastOfRuns (x :: post)
            else a :: lastOfRuns (x :: post)).
    rewrite Hax. by destruct (sameTurn c a).
  - change (lastOfRuns ((c :: d :: pre) ++ a :: x :: post))
      with (if sameTurn c d then lastOfRuns ((d :: pre) ++ a :: x :: post)
            else c :: lastOfRuns ((d :: pre) ++ a :: x :: post)).
    change (lastOfRuns ((c :: d :: pre) ++ [a]))
      with (if sameTurn c d then lastOfRuns ((d :: pre) ++ [a])
            else c :: lastOfRuns ((d :: pre) ++ [a])).
    rewrite IH. by destruct (sameTurn c d).
Qed.

(** Of two consecutive records of one turn the first leaves no trace. *)
Lemma lastOfRuns_merge (pre post : list Message.t) (a b : Message.t) :
  sameTurn a b = true →
  lastOfRuns (pre ++ a :: b :: post) = lastOfRuns (pre ++ b :: post).
Proof.
  intros Hab. induction pre as [|c [|d pre] IH].
  - simpl. by rewrite Hab.
  - change (lastOfRuns ([c] ++ a :: b :: post))
      with (if sameTurn c a then lastOfRuns (a :: b :: post)
            else c :: lastOfRuns (a :: b :: post)).
    change (lastOfRuns ([c] ++ b :: post))
      with (if sameTurn c b then lastOfRuns (b :: post)
            else c :: lastOfRuns (b :: post)).
    change (lastOfRuns (a :: b :: post))
      with (if sameTurn a b then lastOfRuns (b :: post)
            else a :: lastOfRuns (b :: post)).
    by rewrite Hab, (sameTurn_right a b c Hab).
  - change (lastOfRuns ((c :: d :: pre) ++ a :: b :: post))
      with (if sameTurn c d then lastOfRuns ((d :: pre) ++ a :: b :: post)
            else c :: lastOfRuns ((d :: pre) ++ a :: b :: post)).
    change (lastOfRuns ((c :: d :: pre) ++ b :: post))
      with (if sameTurn c d then lastOfRuns ((d :: pre) ++ b :: post)
            else c :: lastOfRuns ((d :: pre) ++ b :: post)).
    by rewrite IH.
Qed.

(** A record that is the last one, or is followed by a record of another
    turn, closes its run. *)
Lemma lastOfRuns_closed (pre post : list Message.t) (b : Message.t) :
  (∀ c, head post = Some c → sameTurn b c = false) →
  lastOfRuns (pre ++ b :: post) = lastOfRuns (pre ++ [b]) ++ lastOfRuns post.
Proof.
  intros Hpost. destruct post as [|c post].
  - by rewrite app_nil_r.
  - apply lastOfRuns_cut. by apply Hpost.
Qed.

(** Replacing the last record by one of the same turn changes only the
    last message. *)
Lemma lastOfRuns_snoc_same (pre front : list Message.t) (a b : Message.t) :
  sameTurn a b = true →
  lastOfRuns (pre ++ [a]) = front ++ [a] →
  lastOfRuns (pre ++ [b]) = front ++ [b].
Proof.
  intros Hab. revert front. induction pre as [|c [|d pre] IH]; intros front Hfa.
  - apply (app_inj_tail [] front) in Hfa as [<- _]. done.
  - simpl in Hfa |- *. rewrite <- (sameTurn_right a b c Hab).
    destruct (sameTurn c a).
    + apply (app_inj_tail [] front) in Hfa as [<- _]. done.
    + apply (app_inj_tail [c] front) in Hfa as [<- _]. done.
  - change (lastOfRuns ((c :: d :: pre) ++ [a]))
      with (if sameTurn c d then lastOfRuns ((d :: pre) ++ [a])
            else c :: lastOfRuns ((d :: pre) ++ [a])) in Hfa.
    change (lastOfRuns ((c :: d :: pre) ++ [b]))
      with (if sameTurn c d then lastOfRuns ((d :: pre) ++ [b])
            else c :: lastOfRuns ((d :: pre) ++ [b])).
    destruct (sameTurn c d); [by apply IH|].
    destruct (lastOfRuns_snoc (d :: pre) a) as [f Hf].
    rewrite Hf in Hfa. apply (app_inj_tail (c :: f) front) in Hfa as [<- _].
    by rewrite (IH f Hf).
Qed.

Section ParserFacts.
Context `{Runtime}.

Lemma parseLine_records (fpath : string) (lines : list string)
    (st : list Message.t * Z) :
  unnumbered
  <$> (foldl (parseLine fpath (extractSessionID fpath) (extractProject fpath))
             st lines).1
  = foldl replaceOrAppend (unnumbered <$> st.1)
      ((λ '(msgType, timestamp, text),
          {| Message.Role := msgType; Message.Type_ := msgType;
             Message.Text := text; Message.Timestamp := timestamp;
             Message.SessionID := extractSessionID fpath;
             Message.Project := extractProject fpath;
             Message.FilePath := fpath; Message.MsgIndex := 0 |})
       <$> omap decodeRecord lines).
Proof.
  revert st. induction lines as [|line lines IH]; intros st; [done|].
  cbn [foldl omap list_omap]. unfold parseLine at 2.
  destruct (decodeRecord line) as [[[msgType timestamp] text]|]; [|apply IH].
  rewrite IH. cbn [fmap list_fmap foldl]. f_equal.
  destruct st as [messages idx].
  by rewrite fst_keepMessage, replaceOrAppend_unnumbered.
Qed.

(** The parser refines its specification: the output is the last record
    of every run of consecutive kept records of one turn, numbered from
    zero. *)
Lemma parseJSONL_lastOfRuns (fpath data : string) :
  parseJSONL fpath data = fixMsgIndex (lastOfRuns (keptRecords fpath data)).
Proof.
  unfold parseJSONL, keptRecords.
  destruct (parseLines fpath data) as [messages idx] eqn:Hloop.
  rewrite <- fixMsgIndex_unnumbered. f_equal.
  rewrite <- foldl_replaceOrAppend_nil.
  pose proof (parseLine_records fpath (Bytes.Split data Bytes.LF) ([], 0)) as Hrec.
  unfold parseLines in Hloop. by rewrite Hloop in Hrec.
Qed.

(** C5. Ordinal invariant: in the output the i-th message has
    [MsgIndex] i, so the ordinals are 0, 1, ..., n-1 in output order; and
    the output, ordinals aside, is a sub-sequence of the kept records in
    their original order. *)
Theorem parseJSONL_ordinals_dense (fpath data : string) :
  Message.MsgIndex <$> parseJSONL fpath data
  = Z.of_nat <$> seq 0 (length (parseJSONL fpath data))
  ∧ (unnumbered <$> parseJSONL fpath data) `sublist_of` keptRecords fpath data.
Proof.
  split.
  - unfold parseJSONL. destruct (parseLines fpath data) as [messages idx].
    unfold fixMsgIndex. rewrite length_imap, fmap_imap.
    apply list_eq. intros i.
    rewrite list_lookup_imap, list_lookup_fmap.
    destruct (messages !! i) as [m|] eqn:Hm; simpl.
    + apply lookup_lt_Some in Hm. by rewrite lookup_seq_lt.
    + apply lookup_ge_None in Hm. by rewrite lookup_seq_ge.
  - rewrite parseJSONL_lastOfRuns, unnumbered_fixMsgIndex.
    etrans; [|apply lastOfRuns_sublist].
    assert (Hid : ∀ l, Forall (λ m, Message.MsgIndex m = 0) l →
                       unnumbered <$> l = l).
    { induction 1 as [|[] l Hm _ IH]; [done|]. simpl in Hm. subst.
      cbn [fmap list_fmap]. f_equal. exact IH. }
    rewrite Hid; [done|].
    apply Forall_forall. intros m Hm.
    pose proof (elem_of_sublist _ _ _ Hm (lastOfRuns_sublist _)) as Hkept.
    unfold keptRecords in Hkept.
    apply list_elem_of_fmap in Hkept as [[[? ?] ?] [-> _]]. done.
Qed.

(** Of two consecutive kept records of one turn, the first never reaches
    the output: the parse is the one of the input without it. *)
Lemma parseJSONL_first_of_pair_dropped (fpath data : string)
    (pre post : list Message.t) (a b : Message.t) :
  keptRecords fpath data = pre ++ a :: b :: post →
  sameTurn a b = true →
  parseJSONL fpath data = fixMsgIndex (lastOfRuns (pre ++ b :: post)).
Proof.
  intros Hkept Hab. rewrite parseJSONL_lastOfRuns, Hkept.
  by rewrite lastOfRuns_merge.
Qed.

(** C3, as amended.  Parser deduplication: when two consecutive kept
    records have the same time stamp and role, and the kept record after
    them (if any) is of another turn, the output holds exactly one
    Message for the pair, and it is the second record: had the input
    ended with the first record the output would end [front ++ [a]]; the
    output is [front ++ [b]] followed by what the later records give. *)
Theorem parseJSONL_dedup_keeps_second (fpath data : string)
    (pre post : list Message.t) (a b : Message.t) :
  keptRecords fpath data = pre ++ a :: b :: post →
  sameTurn a b = true →
  (∀ c, head post = Some c → sameTurn b c = false) →
  ∃ front,
    lastOfRuns (pre ++ [a]) = front ++ [a]
    ∧ parseJSONL fpath data = fixMsgIndex (front ++ b :: lastOfRuns post)
    ∧ parseJSONL fpath data !! length front
      = Some (Message.withMsgIndex b (Z.of_nat (length front))).
Proof.
  intros Hkept Hab Hpost.
  destruct (lastOfRuns_snoc pre a) as [front Hfront]. exists front.
  pose proof (lastOfRuns_snoc_same pre front a b Hab Hfront) as Hb.
  assert (Hout : parseJSONL fpath data
                 = fixMsgIndex (front ++ b :: lastOfRuns post)).
  { rewrite parseJSONL_lastOfRuns, Hkept, lastOfRuns_merge by done.
    rewrite lastOfRuns_closed by done. rewrite Hb. by rewrite <- app_assoc. }
  split; [done|]. split; [done|].
  rewrite Hout. unfold fixMsgIndex. rewrite list_lookup_imap.
  by rewrite list_lookup_middle.
Qed.

(** C10, as amended.  Deduplication is adjacent-only: two kept records of
    one turn are both in the output, in their order, when the kept record
    right after the first is of another turn and so is the one right
    after the second (if any); a record of the same turn further on never
    replaces the first across the messages between them. *)
Theorem parseJSONL_dedup_adjacent_only (fpath data : string)
    (pre mid post : list Message.t) (a x b : Message.t) :
  keptRecords fpath data = pre ++ a :: (x :: mid) ++ b :: post →
  sameTurn a b = true →
  sameTurn a x = false →
  (∀ c, head post = Some c → sameTurn b c = false) →
  ∃ front middle,
    parseJSONL fpath data
    = fixMsgIndex (front ++ a :: middle ++ b :: lastOfRuns post).
Proof.
  intros Hkept _ Hax Hpost.
  destruct (lastOfRuns_snoc pre a) as [front Hfront].
  destruct (lastOfRuns_snoc (x :: mid) b) as [middle Hmiddle].
  exists front, middle.
  rewrite parseJSONL_lastOfRuns, Hkept. f_equal.
  cbn [app]. rewrite lastOfRuns_cut by done. rewrite Hfront.
  change (x :: mid ++ b :: post) with ((x :: mid) ++ b :: post).
  rewrite (lastOfRuns_closed (x :: mid) post b Hpost), Hmiddle.
  by rewrite <- !app_assoc.
Qed.

End ParserFacts.

(** ** Byte-wise order of strings *)

Lemma ascii_compare_refl (c : ascii) : Ascii.compare c c = Eq.
Proof. apply N.compare_refl. Qed.

Lemma ascii_compare_lt_trans (a b c : ascii) :
  Ascii.compare a b = Lt → Ascii.compare b c = Lt → Ascii.compare a c = Lt.
Proof. unfold Ascii.compare. rewrite !N.compare_lt_iff. lia. Qed.

Lemma string_compare_refl (s : string) : String.compare s s = Eq.
Proof. induction s as [|c s IH]; [done|]. simpl. by rewrite ascii_compare_refl. Qed.

Lemma string_compare_lt_trans (s1 s2 s3 : string) :
  String.compare s1 s2 = Lt → String.compare s2 s3 = Lt →
  String.compare s1 s3 = Lt.
Proof.
  revert s2 s3. induction s1 as [|a s1 IH]; intros [|b s2] [|c s3]; simpl;
    try done.
  destruct (Ascii.compare a b) eqn:Hab; [|clear IH|done].
  - apply Ascii.compare_eq_iff in Hab as ->.
    destruct (Ascii.compare b c); [apply IH|done|done].
  - intros _. destruct (Ascii.compare b c) eqn:Hbc; [|intros _|done].
    + apply Ascii.compare_eq_iff in Hbc as <-. by rewrite Hab.
    + by rewrite (ascii_compare_lt_trans a b c).
Qed.

Lemma string_ltb_irrefl (s : string) : String.ltb s s = false.
Proof. unfold String.ltb. by rewrite string_compare_refl. Qed.

Lemma string_ltb_trans (s1 s2 s3 : string) :
  String.ltb s1 s2 = true → String.ltb s2 s3 = true → String.ltb s1 s3 = true.
Proof.
  unfold String.ltb. intros H12 H23.
  destruct (String.compare s1 s2) eqn:E12; try done.
  destruct (String.compare s2 s3) eqn:E23; try done.
  by rewrite (string_compare_lt_trans s1 s2 s3).
Qed.

Lemma string_ltb_false_leb (s1 s2 : string) :
  String.ltb s1 s2 = false ↔ String.leb s2 s1 = true.
Proof.
  unfold String.ltb, String.leb. rewrite (String.compare_antisym s2 s1).
  destruct (String.compare s1 s2); simpl; split; congruence.
Qed.

Lemma string_leb_trans (s1 s2 s3 : string) :
  String.leb s1 s2 = true → String.leb s2 s3 = true → String.leb s1 s3 = true.
Proof.
  unfold String.leb. intros H12 H23.
  destruct (String.compare s1 s2) eqn:E12; try done.
  - apply String.compare_eq_iff in E12 as ->. done.
  - destruct (String.compare s2 s3) eqn:E23; try done.
    + apply String.compare_eq_iff in E23 as <-. by rewrite E12.
    + by rewrite (string_compare_lt_trans s1 s2 s3).
Qed.

(** ** Sorted lists and fan-in *)

Lemma StronglySorted_weaken {A : Type} (R1 R2 : A → A → Prop) (l : list A) :
  (∀ a b, R1 a b → R2 a b) → StronglySorted R1 l → StronglySorted R2 l.
Proof.
  intros HR. induction 1 as [|a l _ IH Ha]; constructor; [done|].
  eapply Forall_impl; [exact Ha|]. apply HR.
Qed.

Lemma StronglySorted_take {A : Type} (R : A → A → Prop) (l : list A) (n : nat) :
  StronglySorted R l → StronglySorted R (take n l).
Proof.
  intros Hl. revert n. induction Hl as [|a l _ IH Ha]; intros [|n]; simpl;
    try constructor; [apply IH|].
  by apply Forall_take.
Qed.

Lemma concat_Permutation {A : Type} (l1 l2 : list (list A)) :
  l1 ≡ₚ l2 → concat l1 ≡ₚ concat l2.
Proof.
  induction 1 as [|x l1 l2 _ IH|x y l|l1 l2 l3 _ IH1 _ IH2]; simpl.
  - done.
  - by rewrite IH.
  - rewrite !app_assoc. f_equiv. apply Permutation_app_comm.
  - by rewrite IH1.
Qed.

(** Leaving out the empty results does not change what is merged. *)
Lemma concat_nonempty {A : Type} (l : list (list A)) :
  concat (filter (λ ms : list A, (0 < length ms)%nat) l) = concat l.
Proof.
  induction l as [|ms l IH]; [done|]. rewrite filter_cons.
  destruct ms as [|m ms]; simpl length.
  - rewrite decide_False by lia. done.
  - rewrite decide_True by lia. simpl. by rewrite IH.
Qed.

Lemma newerFirst_strict_weak : StrictWeakOrder newerFirst.
Proof.
  unfold newerFirst, Bytes.gtb. split.
  - intros a. apply string_ltb_irrefl.
  - intros a b c Hab Hbc. by apply (string_ltb_trans _ (matchTime b)).
  - intros a b c Hab%string_ltb_false_leb Hbc%string_ltb_false_leb.
    apply string_ltb_false_leb.
    by apply (string_leb_trans _ (matchTime b)).
Qed.

Lemma SortedBy_newerFirst (l : list Match.t) :
  SortedBy newerFirst l ↔ NewestFirst l.
Proof.
  unfold SortedBy, NewestFirst.
  split; intros Hl; (eapply StronglySorted_weaken; [|exact Hl]); simpl;
    intros a b; unfold newerFirst, Bytes.gtb; apply string_ltb_false_leb.
Qed.


(** ** Regex search engine *)

Section SearchFacts.
Context `{Runtime}.

(** What a call that returns normally has computed from the results in
    their order of arrival. *)
Lemma finish_ok (opts : SearchOpts.t) (files : list string) (pfSkipped : Z)
    (arrival : list (list Match.t)) (matches : list Match.t)
    (stats : SearchStats.t) :
  finish opts files pfSkipped arrival = SearchOk matches stats →
  matches = take (Z.to_nat (SearchOpts.MaxResults opts))
                 (sortSlice Match.t newerFirst (concat arrival))
  ∧ Z.of_nat (length matches) ≤ SearchOpts.MaxResults opts.
Proof.
  unfold finish.
  destruct (SearchOpts.MaxResults opts <? _) eqn:Hlen.
  - destruct (SearchOpts.MaxResults opts <? 0) eqn:Hneg; [done|].
    intros [= <- _]. split; [done|]. rewrite length_take. lia.
  - intros [= <- _]. apply Z.ltb_ge in Hlen.
    split; [|done]. rewrite take_ge; [done|lia].
Qed.

(** C6. Sort-and-limit contract: the match list of a successful call is
    in non-increasing lexical order of time stamps and no longer than
    [MaxResults] (a call can only succeed with [MaxResults] at least
    zero, so this covers every positive limit); it is the head of a
    newest-first arrangement of all per-file match lists together, so the
    merge precedes both the sort and the truncation. *)
Theorem regexSearch_sorted_and_limited (pattern searchPath : string)
    (opts : SearchOpts.t) (matches : list Match.t) (stats : SearchStats.t) :
  regexSearch pattern searchPath opts (SearchOk matches stats) →
  NewestFirst matches
  ∧ Z.of_nat (length matches) ≤ SearchOpts.MaxResults opts
  ∧ ∃ re files merged,
      Compile ("(?i)" +:+ pattern) = Some re
      ∧ findSessionFiles searchPath (SearchOpts.MaxDays opts) = (files, true)
      ∧ merged ≡ₚ concat (map fst (fileResults re pattern opts files))
      ∧ NewestFirst merged
      ∧ matches = take (Z.to_nat (SearchOpts.MaxResults opts)) merged.
Proof.
  inversion 1 as [| |re files arrival Hre Hfiles Harrival Hfinish].
  apply finish_ok in Hfinish as [Hmatches Hlen].
  assert (Hsorted : NewestFirst (sortSlice Match.t newerFirst (concat arrival))).
  { apply SortedBy_newerFirst, sortSlice_sorted, newerFirst_strict_weak. }
  split; [|split; [done|]].
  - rewrite Hmatches. by apply StronglySorted_take.
  - exists re, files, (sortSlice Match.t newerFirst (concat arrival)).
    repeat split; try done.
    rewrite sortSlice_perm, (concat_Permutation _ _ Harrival).
    unfold sent. by rewrite concat_nonempty.
Qed.

(** However the results arrive, the sort receives the same matches. *)
Lemma arrival_merged (re : Regexp) (pattern : string) (opts : SearchOpts.t)
    (files : list string) (arrival : list (list Match.t)) :
  arrival ≡ₚ sent (fileResults re pattern opts files) →
  sortSlice Match.t newerFirst (concat arrival)
  ≡ₚ concat (map fst (fileResults re pattern opts files)).
Proof.
  intros Harrival. rewrite sortSlice_perm, (concat_Permutation _ _ Harrival).
  unfold sent. by rewrite concat_nonempty.
Qed.


End SearchFacts.

(** ** The parser on the sample transcripts *)

Lemma parseJSONL_dedup_keeps_second_witness :
  ∃ front,
    lastOfRuns ([] ++ [demoRecord "user" "2024-05-01T10:00:00" "first draft"])
    = front ++ [demoRecord "user" "2024-05-01T10:00:00" "first draft"]
    ∧ @parseJSONL (sampleRuntime []) demoPath editedTurn
      = fixMsgIndex
          (front ++ demoRecord "user" "2024-05-01T10:00:00" "final text"
                 :: lastOfRuns
                      [demoRecord "assistant" "2024-05-01T10:00:05" "noted"])
    ∧ @parseJSONL (sampleRuntime []) demoPath editedTurn !! length front
      = Some (Message.withMsgIndex
                (demoRecord "user" "2024-05-01T10:00:00" "final text")
                (Z.of_nat (length front))).
Proof.
  apply (@parseJSONL_dedup_keeps_second (sampleRuntime []) demoPath editedTurn
           [] [demoRecord "assistant" "2024-05-01T10:00:05" "noted"]
           (demoRecord "user" "2024-05-01T10:00:00" "first draft")
           (demoRecord "user" "2024-05-01T10:00:00" "final text")).
  - vm_compute. reflexivity.
  - reflexivity.
  - intros c [= <-]. reflexivity.
Defined.

(** C3 as stated fails when a third record of the same turn follows the
    pair: the three records yield one Message, and its text is the third
    record's, not the second's. *)
Lemma parseJSONL_dedup_keeps_second_counterexample :
  @keptRecords (sampleRuntime []) demoPath tripleTurn
  = [] ++ demoRecord "user" "2024-05-01T10:00:00" "one"
       :: demoRecord "user" "2024-05-01T10:00:00" "two"
       :: [demoRecord "user" "2024-05-01T10:00:00" "three"]
  ∧ sameTurn (demoRecord "user" "2024-05-01T10:00:00" "one")
             (demoRecord "user" "2024-05-01T10:00:00" "two") = true
  ∧ @parseJSONL (sampleRuntime []) demoPath tripleTurn
    = [demoRecord "user" "2024-05-01T10:00:00" "three"]
  ∧ ¬ ∃ m, m ∈ @parseJSONL (sampleRuntime []) demoPath tripleTurn
           ∧ Message.Text m = "two".
Proof.
  assert (Hout : @parseJSONL (sampleRuntime []) demoPath tripleTurn
                 = [demoRecord "user" "2024-05-01T10:00:00" "three"])
    by (vm_compute; reflexivity).
  split; [vm_compute; reflexivity|]. split; [reflexivity|]. split; [exact Hout|].
  intros (m & Hm & Htext). rewrite Hout in Hm.
  apply list_elem_of_singleton in Hm as ->. discriminate Htext.
Qed.

Lemma parseJSONL_dedup_adjacent_only_witness :
  ∃ front middle,
    @parseJSONL (sampleRuntime []) demoPath quickExchange
    = fixMsgIndex
        (front ++ demoRecord "user" "2024-05-01T10:00:00" "ping"
               :: middle
               ++ demoRecord "user" "2024-05-01T10:00:00" "ping again"
               :: lastOfRuns []).
Proof.
  apply (@parseJSONL_dedup_adjacent_only (sampleRuntime []) demoPath
           quickExchange [] [] []
           (demoRecord "user" "2024-05-01T10:00:00" "ping")
           (demoRecord "assistant" "2024-05-01T10:00:00" "pong")
           (demoRecord "user" "2024-05-01T10:00:00" "ping again")).
  - vm_compute. reflexivity.
  - reflexivity.
  - reflexivity.
  - intros c [=].
Defined.

(** C10 as stated fails when the kept record between the two is of the
    same turn as they are: it replaces the first and is replaced by the
    second, so only the second is in the output. *)
Lemma parseJSONL_dedup_adjacent_only_counterexample :
  @keptRecords (sampleRuntime []) demoPath tripleTurn
  = [] ++ demoRecord "user" "2024-05-01T10:00:00" "one"
       :: [demoRecord "user" "2024-05-01T10:00:00" "two"]
       ++ demoRecord "user" "2024-05-01T10:00:00" "three" :: []
  ∧ sameTurn (demoRecord "user" "2024-05-01T10:00:00" "one")
             (demoRecord "user" "2024-05-01T10:00:00" "three") = true
  ∧ length (@parseJSONL (sampleRuntime []) demoPath tripleTurn) = 1%nat
  ∧ ¬ ∃ m, m ∈ @parseJSONL (sampleRuntime []) demoPath tripleTurn
           ∧ Message.Text m = "one".
Proof.
  assert (Hout : @parseJSONL (sampleRuntime []) demoPath tripleTurn
                 = [demoRecord "user" "2024-05-01T10:00:00" "three"])
    by (vm_compute; reflexivity).
  split; [vm_compute; reflexivity|]. split; [reflexivity|].
  split; [by rewrite Hout|].
  intros (m & Hm & Htext). rewrite Hout in Hm.
  apply list_elem_of_singleton in Hm as ->. discriminate Htext.
Qed.

(** ** The search on the sample sessions *)

(** C1. Prefilter soundness fails on the code: for [colou?r] the
    extraction returns the literal [colou], although the expression also
    matches [color].  A session that says "color" is skipped by the
    prefilter and every run reports no match, while the same file
    searched without the prefilter gives one. *)
Theorem prefilter_drops_matching_file :
  @extractPrefilterLiterals (sampleRuntime colorFiles) "colou?r" = ["colou"]
  ∧ @Compile (sampleRuntime colorFiles) ("(?i)" +:+ "colou?r")
    = Some (demoRegexp "colou?r")
  ∧ @MatchString (sampleRuntime colorFiles) (demoRegexp "colou?r")
      "pick a color for the banner" = true
  ∧ @searchFileTracked (sampleRuntime colorFiles) demoPath
      (demoRegexp "colou?r") ["colou"] (demoOpts 10) = ([], true)
  ∧ length (@searchFileTracked (sampleRuntime colorFiles) demoPath
              (demoRegexp "colou?r") [] (demoOpts 10)).1 = 1%nat
  ∧ ∀ r, @regexSearch (sampleRuntime colorFiles) "colou?r" demoRoot
           (demoOpts 10) r →
         r = SearchOk []
               {| SearchStats.FilesTotal := 1;
                  SearchStats.PrefilterSkipped := 1;
                  SearchStats.RegexSearched := 0 |}.
Proof.
  repeat (split; [vm_compute; reflexivity|]).
  intros r Hrun.
  destruct Hrun as [Hre|re files Hre Hfiles|re files arrival Hre Hfiles Harrival].
  - vm_compute in Hre. discriminate Hre.
  - vm_compute in Hfiles. discriminate Hfiles.
  - assert (re = demoRegexp "colou?r") as ->.
    { vm_compute in Hre. injection Hre as <-. vm_compute. reflexivity. }
    assert (files = [demoPath]) as ->.
    { vm_compute in Hfiles. injection Hfiles as <-. reflexivity. }
    assert (arrival = []) as ->.
    { apply Permutation_nil_r. rewrite Harrival. vm_compute. reflexivity. }
    vm_compute. reflexivity.
Qed.



Lemma regexSearch_sorted_and_limited_witness :
  NewestFirst apartNewest
  ∧ Z.of_nat (length apartNewest) ≤ 1
  ∧ ∃ re files merged,
      @Compile (sampleRuntime apartFiles) ("(?i)" +:+ "deploy") = Some re
      ∧ @findSessionFiles (sampleRuntime apartFiles) demoRoot 7 = (files, true)
      ∧ merged ≡ₚ concat (map fst (@fileResults (sampleRuntime apartFiles) re
                                     "deploy" (demoOpts 1) files))
      ∧ NewestFirst merged
      ∧ apartNewest = take (Z.to_nat 1) merged.
Proof.
  apply (@regexSearch_sorted_and_limited (sampleRuntime apartFiles) "deploy"
           demoRoot (demoOpts 1) apartNewest apartStats).
  assert (Hfinish :
    @finish (sampleRuntime apartFiles) (demoOpts 1) [demoPath; otherPath]
       (countSkipped (deployResults apartFiles 1))
       (sent (deployResults apartFiles 1))
    = SearchOk apartNewest apartStats) by (vm_compute; reflexivity).
  rewrite <- Hfinish.
  apply (@regexSearch_fan_in (sampleRuntime apartFiles) "deploy" demoRoot
           (demoOpts 1) (demoRegexp "deploy") [demoPath; otherPath]).
  - vm_compute. reflexivity.
  - vm_compute. reflexivity.
  - reflexivity.
Defined.

(** * Further properties of the code *)

(** ** Byte strings *)

Lemma append_cons (c : ascii) (s t : string) :
  String c s +:+ t = String c (s +:+ t).
Proof. reflexivity. Qed.

Lemma append_nil_l (s : string) : EmptyString +:+ s = s.
Proof. reflexivity. Qed.

Lemma append_nil_r (s : string) : s +:+ EmptyString = s.
Proof. induction s as [|c s IH]; [done|]. by rewrite append_cons, IH. Qed.

Lemma append_assoc (s t u : string) : (s +:+ t) +:+ u = s +:+ t +:+ u.
Proof. induction s as [|c s IH]; [done|]. by rewrite !append_cons, IH. Qed.

Lemma length_append (s t : string) :
  String.length (s +:+ t) = (String.length s + String.length t)%nat.
Proof.
  induction s as [|c s IH]; [done|]. rewrite append_cons. cbn. by rewrite IH.
Qed.

Lemma Bytes_take_drop (n : nat) (s : string) :
  Bytes.take n s +:+ Bytes.drop n s = s.
Proof.
  revert s. induction n as [|n IH]; intros [|c s]; simpl; try done.
  by rewrite append_cons, IH.
Qed.

Lemma Bytes_drop_drop (n m : nat) (s : string) :
  Bytes.drop n (Bytes.drop m s) = Bytes.drop (m + n) s.
Proof.
  revert s. induction m as [|m IH]; intros s; simpl; [done|].
  destruct s as [|c s]; [by destruct n | apply IH].
Qed.

Lemma Bytes_drop_next (i : nat) (s rest : string) (c : ascii) :
  Bytes.drop i s = String c rest → Bytes.drop (S i) s = rest.
Proof.
  intros Hdrop. replace (S i) with (i + 1)%nat by lia.
  by rewrite <- Bytes_drop_drop, Hdrop.
Qed.

Lemma Bytes_length_take (n : nat) (s : string) :
  String.length (Bytes.take n s) = min n (String.length s).
Proof.
  revert s. induction n as [|n IH]; intros [|c s]; simpl; try done.
  by rewrite IH.
Qed.

Lemma Bytes_length_drop (n : nat) (s : string) :
  String.length (Bytes.drop n s) = (String.length s - n)%nat.
Proof. revert s. induction n as [|n IH]; intros [|c s]; simpl; try done. Qed.

Lemma HasPrefix_spec (s prefix : string) :
  Bytes.HasPrefix s prefix = true ↔ ∃ rest, s = prefix +:+ rest.
Proof.
  revert s. induction prefix as [|p prefix IH]; intros s.
  - split; [by exists s | intros _; by destruct s].
  - destruct s as [|c s].
    + split; [done | by intros [rest Heq]].
    + cbn [Bytes.HasPrefix]. rewrite andb_true_iff, IH, Ascii.eqb_eq. split.
      * intros [-> [rest ->]]. by exists rest.
      * intros [rest Heq]. rewrite append_cons in Heq.
        injection Heq as -> ->. split; [done | by exists rest].
Qed.

Lemma HasPrefix_drop (s prefix : string) :
  Bytes.HasPrefix s prefix = true →
  s = prefix +:+ Bytes.drop (String.length prefix) s.
Proof.
  intros [rest ->]%HasPrefix_spec. f_equal.
  induction prefix as [|p prefix IH]; simpl; [by destruct rest | done].
Qed.

(** [bytes.Contains] finds exactly the contiguous occurrences. *)
Lemma Contains_spec (s sub : string) :
  Bytes.Contains s sub = true ↔ ∃ pre post, s = pre +:+ sub +:+ post.
Proof.
  induction s as [|c s IH].
  - cbn [Bytes.Contains]. rewrite orb_false_r, HasPrefix_spec. split.
    + intros [rest ->]. by exists EmptyString, rest.
    + intros [[|? pre] [post Heq]]; [by exists post | done].
  - cbn [Bytes.Contains]. rewrite orb_true_iff, IH, HasPrefix_spec. split.
    + intros [[rest ->]|(pre & post & ->)].
      * by exists EmptyString, rest.
      * by exists (String c pre), post.
    + intros [[|d pre] [post Heq]].
      * left. by exists post.
      * right. injection Heq as -> ->. by exists pre, post.
Qed.

(** ** Splitting a pattern at its top-level pipes *)

(** Every part followed by a pipe. *)
Fixpoint pipeAfterEach (parts : list string) : string :=
  match parts with
  | [] => EmptyString
  | part :: parts' => part +:+ "|" +:+ pipeAfterEach parts'
  end.

Lemma Join_snoc (parts : list string) (part : string) :
  Bytes.Join (parts ++ [part]) "|" = pipeAfterEach parts +:+ part.
Proof.
  induction parts as [|p [|q parts] IH];
    [done | cbn; by rewrite !append_assoc, append_nil_l |].
  change (Bytes.Join ((p :: q :: parts) ++ [part]) "|")
    with (p +:+ "|" +:+ Bytes.Join ((q :: parts) ++ [part]) "|").
  rewrite IH. cbn [pipeAfterEach]. by rewrite !append_assoc.
Qed.

Lemma pipeAfterEach_snoc (parts : list string) (part : string) :
  pipeAfterEach (parts ++ [part]) = pipeAfterEach parts +:+ part +:+ "|".
Proof.
  induction parts as [|p parts IH]; simpl; [done|].
  by rewrite IH, !append_assoc.
Qed.

Lemma splitTopLevelPipe_loop_join (s rest : string) (i start : nat)
    (depth : Z) (parts : list string) :
  (start ≤ i)%nat →
  Bytes.drop i s = rest →
  Bytes.Join (splitTopLevelPipe_loop rest s i start depth parts) "|"
  = pipeAfterEach parts +:+ Bytes.drop start s.
Proof.
  revert i start depth parts.
  induction rest as [|c rest IH]; intros i start depth parts Hle Hrest.
  - simpl. apply Join_snoc.
  - pose proof (Bytes_drop_next i s rest c Hrest) as Hnext.
    cbn [splitTopLevelPipe_loop].
    destruct (Ascii.eqb c "("); [apply IH; [lia|done]|].
    destruct (Ascii.eqb c ")"); [apply IH; [lia|done]|].
    destruct (Ascii.eqb_spec c "|") as [->|_]; [|apply IH; [lia|done]].
    destruct (depth =? 0); [|apply IH; [lia|done]].
    rewrite IH by (done || lia). rewrite pipeAfterEach_snoc, !append_assoc.
    f_equal. unfold Bytes.slice.
    rewrite <- (Bytes_take_drop (i - start) (Bytes.drop start s)) at 2.
    f_equal. rewrite Bytes_drop_drop.
    replace (start + (i - start))%nat with i by lia.
    by rewrite Hrest, Hnext.
Qed.

(** Splitting loses nothing: the parts joined by pipes are the pattern. *)
Theorem splitTopLevelPipe_join (s : string) :
  Bytes.Join (splitTopLevelPipe s) "|" = s.
Proof.
  unfold splitTopLevelPipe.
  by rewrite (splitTopLevelPipe_loop_join s s 0 0 0 []).
Qed.

Lemma splitTopLevelPipe_loop_nonempty (s rest : string) (i start : nat)
    (depth : Z) (parts : list string) :
  splitTopLevelPipe_loop rest s i start depth parts ≠ [].
Proof.
  revert i start depth parts.
  induction rest as [|c rest IH]; intros i start depth parts; simpl.
  - by destruct parts.
  - repeat case_match; apply IH.
Qed.

Section PrefilterMore.
Context `{Runtime}.

(** The prefilter is off exactly when some branch has no literal: the
    result is nil if and only if a part of the split pattern yields an
    empty literal, and otherwise it holds one literal for every branch. *)
Theorem extractPrefilterLiterals_nil_iff (pattern : string) :
  (extractPrefilterLiterals pattern = []
   ↔ Exists (λ part, branchLiteral part = EmptyString)
            (splitTopLevelPipe (stripOuterGroup pattern)))
  ∧ (extractPrefilterLiterals pattern ≠ [] →
     length (extractPrefilterLiterals pattern)
     = length (splitTopLevelPipe (stripOuterGroup pattern))).
Proof.
  set (parts := splitTopLevelPipe (stripOuterGroup pattern)).
  destruct (decide (Exists (λ part, branchLiteral part = EmptyString) parts))
    as [Hweak|Hstrong].
  - assert (Hnil : extractPrefilterLiterals pattern = []).
    { unfold extractPrefilterLiterals. fold parts.
      by rewrite extractPrefilterLiterals_loop_weak. }
    split; [done | by rewrite Hnil].
  - apply not_Exists_Forall in Hstrong; [|intros part; apply _].
    assert (Hall : Forall (λ part, branchLiteral part ≠ EmptyString) parts).
    { eapply Forall_impl; [exact Hstrong|]. done. }
    rewrite (extractPrefilterLiterals_all_branches pattern Hall). fold parts.
    split; [|by rewrite length_fmap].
    split; [|intros Hex; by apply Forall_Exists_neg in Hstrong].
    intros Hnil%fmap_nil_inv. exfalso.
    by apply (splitTopLevelPipe_loop_nonempty
                (stripOuterGroup pattern) (stripOuterGroup pattern) 0 0 0 []).
Qed.

End PrefilterMore.

(** ** Patterns without metacharacters *)

(** No byte of [s] is a regex metacharacter. *)
Definition literalOnly (s : string) : bool :=
  Strings.all (λ c, negb (isRegexMeta c)) s.

Lemma literalOnly_cons (c : ascii) (s : string) :
  literalOnly (String c s) = true →
  isRegexMeta c = false ∧ literalOnly s = true.
Proof.
  unfold literalOnly. cbn [Strings.all].
  rewrite andb_true_iff, negb_true_iff. done.
Qed.

Lemma TrimRight_literalOnly (s : string) :
  literalOnly s = true → Bytes.TrimRight s "()" = s.
Proof.
  induction s as [|c s IH]; [done|].
  intros [Hc Hs]%literalOnly_cons. cbn [Bytes.TrimRight]. rewrite (IH Hs).
  destruct s; [|done].
  assert (Bytes.inCutset c "()" = false) as ->; [|done].
  cbn. destruct (Ascii.eqb_spec c "(") as [->|_]; [done|].
  destruct (Ascii.eqb_spec c ")") as [->|_]; done.
Qed.

Lemma Trim_literalOnly (s : string) :
  literalOnly s = true → Bytes.Trim s "()" = s.
Proof.
  intros Hs. unfold Bytes.Trim.
  assert (Bytes.TrimLeft s "()" = s) as ->; [|by apply TrimRight_literalOnly].
  destruct s as [|c s]; [done|].
  apply literalOnly_cons in Hs as [Hc _]. cbn.
  destruct (Ascii.eqb_spec c "(") as [->|_]; [done|].
  destruct (Ascii.eqb_spec c ")") as [->|_]; done.
Qed.

Lemma longestLiteral_loop_literalOnly (rest best current : string) :
  literalOnly rest = true →
  longestLiteral_loop rest best current = keepLonger best (current +:+ rest).
Proof.
  revert best current. induction rest as [|c rest IH]; intros best current.
  - intros _. cbn. by rewrite append_nil_r.
  - intros [Hc Hrest]%literalOnly_cons. cbn [longestLiteral_loop].
    assert (Ascii.eqb c "\" = false) as ->.
    { destruct (Ascii.eqb_spec c "\") as [->|_]; done. }
    rewrite Hc, (IH _ _ Hrest). unfold Bytes.WriteByte.
    rewrite append_assoc. by destruct rest.
Qed.

Lemma splitTopLevelPipe_loop_literalOnly (s rest : string) (i start : nat)
    (depth : Z) (parts : list string) :
  literalOnly rest = true →
  splitTopLevelPipe_loop rest s i start depth parts
  = parts ++ [Bytes.drop start s].
Proof.
  revert i. induction rest as [|c rest IH]; intros i; [done|].
  intros [Hc Hrest]%literalOnly_cons. cbn [splitTopLevelPipe_loop].
  destruct (Ascii.eqb_spec c "(") as [->|_]; [done|].
  destruct (Ascii.eqb_spec c ")") as [->|_]; [done|].
  destruct (Ascii.eqb_spec c "|") as [->|_]; [done|].
  by apply IH.
Qed.

Section LiteralPatterns.
Context `{Runtime}.

(** A plain word is prefiltered by itself: for a non-empty pattern
    without any metacharacter the only literal is the lowered pattern. *)
Theorem extractPrefilterLiterals_literal (pattern : string) :
  literalOnly pattern = true →
  pattern ≠ EmptyString →
  extractPrefilterLiterals pattern = [ToLower pattern].
Proof.
  intros Hlit Hne.
  assert (Hstrip : stripOuterGroup pattern = pattern).
  { unfold stripOuterGroup. destruct pattern as [|c pattern]; [done|].
    apply literalOnly_cons in Hlit as [Hc _].
    assert (Bytes.HasPrefix (String c pattern) "(" = false) as ->.
    { cbn. destruct (Ascii.eqb_spec c "(") as [->|_]; done. }
    by rewrite orb_true_r. }
  assert (Hsplit : splitTopLevelPipe pattern = [pattern]).
  { unfold splitTopLevelPipe.
    by rewrite splitTopLevelPipe_loop_literalOnly. }
  assert (Hbranch : branchLiteral pattern = pattern).
  { unfold branchLiteral, longestLiteral.
    rewrite (Trim_literalOnly _ Hlit), (longestLiteral_loop_literalOnly _ _ _ Hlit).
    rewrite append_nil_l. by destruct pattern. }
  rewrite extractPrefilterLiterals_all_branches; rewrite Hstrip, Hsplit.
  - cbn. by rewrite Hbranch.
  - repeat constructor. by rewrite Hbranch.
Qed.

Lemma anyContained_iff (lower : string) (literals : list string) :
  anyContained lower literals = true
  ↔ ∃ lit pre post, lit ∈ literals ∧ lower = pre +:+ lit +:+ post.
Proof.
  induction literals as [|lit literals IH]; cbn [anyContained].
  - split; [done | by intros (? & ? & ? & ?%not_elem_of_nil & _)].
  - destruct (Bytes.Contains lower lit) eqn:Hlit.
    + apply Contains_spec in Hlit as (pre & post & Hlit).
      split; [|done]. intros _. exists lit, pre, post. split; [by left | done].
    + rewrite IH. split.
      * intros (lit' & pre & post & Hin & Heq).
        exists lit', pre, post. split; [by right | done].
      * intros (lit' & pre & post & [->|Hin]%elem_of_cons & Heq).
        -- assert (Bytes.Contains lower lit = true) as Hyes
             by (apply Contains_spec; by exists pre, post).
           congruence.
        -- by exists lit', pre, post.
Qed.

(** The prefilter lets a file through exactly when it is off or one of
    the literals occurs in the lowered file content. *)
Theorem prefilterMatch_iff (data : string) (literals : list string) :
  prefilterMatch data literals = true
  ↔ literals = []
    ∨ ∃ lit pre post, lit ∈ literals ∧ ToLower data = pre +:+ lit +:+ post.
Proof.
  unfold prefilterMatch. destruct literals as [|lit0 literals].
  - split; [by left | done].
  - cbn [length Nat.eqb]. rewrite anyContained_iff. split; [by right|].
    by intros [?|?].
Qed.

End LiteralPatterns.

Lemma extractPrefilterLiterals_literal_witness :
  @extractPrefilterLiterals (sampleRuntime []) "Heartbeat"
  = [@ToLower (sampleRuntime []) "Heartbeat"].
Proof.
  apply (@extractPrefilterLiterals_literal (sampleRuntime []) "Heartbeat").
  - reflexivity.
  - discriminate.
Defined.

(** ** Replacing and the command-line helpers *)

Lemma HasPrefix_length (s prefix : string) :
  Bytes.HasPrefix s prefix = true → (String.length prefix ≤ String.length s)%nat.
Proof. intros [rest ->]%HasPrefix_spec. rewrite length_append. lia. Qed.

Section ReplaceAllFacts.
Context (old new : string).

(** What is left to pass of a replaced occurrence is not copied. *)
Lemma ReplaceAll_scan_length (s : string) (skip : nat) :
  (String.length new ≤ String.length old)%nat →
  (String.length (Strings.ReplaceAll_scan s old new skip)
   + min skip (String.length s) ≤ String.length s)%nat.
Proof.
  intros Hnew. revert skip. induction s as [|c s IH]; intros skip;
    [cbn [Strings.ReplaceAll_scan String.length]; lia|].
  cbn [Strings.ReplaceAll_scan]. destruct skip as [|skip].
  - destruct (Bytes.HasPrefix (String c s) old) eqn:Hpre.
    + apply HasPrefix_length in Hpre. cbn [String.length] in Hpre |- *.
      rewrite length_append. specialize (IH (String.length old - 1)%nat). lia.
    + specialize (IH 0%nat). cbn [String.length]. lia.
  - specialize (IH skip). cbn [String.length]. lia.
Qed.

Lemma ReplaceAll_scan_absent (s : string) :
  Bytes.Contains s old = false → Strings.ReplaceAll_scan s old new 0 = s.
Proof.
  induction s as [|c s IH]; [done|].
  cbn [Bytes.Contains Strings.ReplaceAll_scan].
  intros [-> Hs]%orb_false_iff. by rewrite (IH Hs).
Qed.

Lemma ReplaceAll_scan_shrinks (s : string) :
  (String.length new < String.length old)%nat →
  Bytes.Contains s old = true →
  (String.length (Strings.ReplaceAll_scan s old new 0) < String.length s)%nat.
Proof.
  intros Hnew. induction s as [|c s IH].
  - cbn [Bytes.Contains]. rewrite orb_false_r.
    intros Hpre%HasPrefix_length. cbn in Hpre. lia.
  - cbn [Bytes.Contains Strings.ReplaceAll_scan].
    destruct (Bytes.HasPrefix (String c s) old) eqn:Hpre.
    + intros _. apply HasPrefix_length in Hpre.
      cbn [String.length] in Hpre |- *. rewrite length_append.
      pose proof (ReplaceAll_scan_length s (String.length old - 1)) as Hlen.
      lia.
    + cbn [orb String.length]. intros Hs. specialize (IH Hs). lia.
Qed.

End ReplaceAllFacts.

Lemma ReplaceAll_shorter (s old new : string) :
  (String.length new < String.length old)%nat →
  (String.length (Strings.ReplaceAll s old new) ≤ String.length s)%nat
  ∧ (Bytes.Contains s old = false → Strings.ReplaceAll s old new = s)
  ∧ (Bytes.Contains s old = true →
     (String.length (Strings.ReplaceAll s old new) < String.length s)%nat).
Proof.
  intros Hnew. unfold Strings.ReplaceAll.
  destruct old as [|o old]; [cbn in Hnew; lia|].
  set (old' := String o old) in *. split; [|split].
  - pose proof (ReplaceAll_scan_length old' new s 0). lia.
  - apply ReplaceAll_scan_absent.
  - by apply ReplaceAll_scan_shrinks.
Qed.

(** One pass of [normalizeBRE] for every operator of [ops]. *)
Lemma normalizeBRE_fold (ops : list string) (pattern : string) :
  Forall (λ c, String.length c = 1%nat) ops →
  (String.length
     (foldl (λ (pattern c : string), Strings.ReplaceAll pattern ("\" +:+ c) c)
            pattern ops)
   ≤ String.length pattern)%nat
  ∧ (foldl (λ (pattern c : string), Strings.ReplaceAll pattern ("\" +:+ c) c)
           pattern ops = pattern
     ↔ Forall (λ c, Bytes.Contains pattern ("\" +:+ c) = false) ops).
Proof.
  intros Hops. revert pattern.
  induction Hops as [|c ops Hc _ IH]; intros pattern; cbn [foldl].
  - split; [done|]. split; [constructor | done].
  - assert (Hshort : (String.length c < String.length ("\" +:+ c))%nat).
    { rewrite length_append. cbn. lia. }
    destruct (ReplaceAll_shorter pattern ("\" +:+ c) c Hshort)
      as (Hlen & Hfix & Hshrink).
    destruct (IH (Strings.ReplaceAll pattern ("\" +:+ c) c)) as [Hlen' Hsame'].
    split; [lia|]. rewrite Forall_cons. split.
    + intros Heq.
      assert (Habsent : Bytes.Contains pattern ("\" +:+ c) = false).
      { destruct (Bytes.Contains pattern ("\" +:+ c)); [|done].
        specialize (Hshrink eq_refl). rewrite Heq in Hlen'. lia. }
      split; [done|]. specialize (Hfix Habsent).
      rewrite Hfix in Heq, Hsame'. by apply Hsame'.
    + intros [Habsent Hrest]. specialize (Hfix Habsent).
      rewrite Hfix. rewrite Hfix in Hsame'. by apply Hsame'.
Qed.

(** [normalizeBRE] never lengthens a pattern, and it changes a pattern
    (so that the caller flags BRE syntax) exactly when the pattern holds
    one of the five escaped operators. *)
Theorem normalizeBRE_changes_iff (pattern : string) :
  (String.length (normalizeBRE pattern) ≤ String.length pattern)%nat
  ∧ (normalizeBRE pattern = pattern
     ↔ Forall (λ c, Bytes.Contains pattern ("\" +:+ c) = false)
              ["|"; "("; ")"; "+"; "?"]).
Proof. apply normalizeBRE_fold. by repeat constructor. Qed.

Lemma ReplaceAll_scan_slash (s : string) :
  Strings.all (λ c, negb (Ascii.eqb c "/"))
              (Strings.ReplaceAll_scan s "/" "-" 0) = true
  ∧ String.length (Strings.ReplaceAll_scan s "/" "-" 0) = String.length s.
Proof.
  induction s as [|c s [IHall IHlen]]; [done|].
  cbn [Strings.ReplaceAll_scan Bytes.HasPrefix String.length Nat.sub].
  assert (Bytes.HasPrefix s "" = true) as -> by (by destruct s).
  rewrite andb_true_r.
  destruct (Ascii.eqb c "/") eqn:Hc.
  - change ("-" +:+ ?t) with (String "-" t).
    cbn [Strings.all String.length]. by rewrite IHall, IHlen.
  - cbn [Strings.all String.length]. by rewrite Hc, IHall, IHlen.
Qed.

(** The encoded project directory name has no slash, begins with a dash
    and has one byte more than the path without its leading slash. *)
Theorem encodePath_no_slash (path : string) :
  Strings.all (λ c, negb (Ascii.eqb c "/")) (encodePath path) = true
  ∧ Bytes.HasPrefix (encodePath path) "-" = true
  ∧ String.length (encodePath path)
    = S (String.length (Strings.TrimPrefix path "/")).
Proof.
  unfold encodePath, Strings.ReplaceAll.
  destruct (ReplaceAll_scan_slash (Strings.TrimPrefix path "/")) as [Hall Hlen].
  change ("-" +:+ ?t) with (String "-" t).
  cbn [Strings.all Bytes.HasPrefix String.length].
  rewrite Hall, Hlen. repeat split.
  by destruct (Strings.ReplaceAll_scan _ _ _ _).
Qed.

(** ** What the parser keeps *)

Lemma Split_nonempty (data : string) (sep : ascii) : Bytes.Split data sep ≠ [].
Proof.
  induction data as [|c data IH]; [done|]. cbn [Bytes.Split].
  destruct (Ascii.eqb c sep); [done|]. by destruct (Bytes.Split data sep).
Qed.

(** Splitting distributes over a separator. *)
Lemma Split_app (a b : string) (sep : ascii) :
  Bytes.Split (a +:+ String sep b) sep = Bytes.Split a sep ++ Bytes.Split b sep.
Proof.
  induction a as [|c a IH].
  - rewrite append_nil_l. cbn [Bytes.Split]. by rewrite Ascii.eqb_refl.
  - rewrite append_cons. cbn [Bytes.Split]. rewrite IH.
    destruct (Ascii.eqb c sep); [done|].
    pose proof (Split_nonempty a sep).
    by destruct (Bytes.Split a sep).
Qed.

Lemma sameTurn_refl (a : Message.t) : sameTurn a a = true.
Proof. unfold sameTurn. by rewrite !String.eqb_refl. Qed.

(** The run that starts with [b] ends with a record of the turn of [b]. *)
Lemma lastOfRuns_head (b : Message.t) (records : list Message.t) :
  ∃ h rest, lastOfRuns (b :: records) = h :: rest ∧ sameTurn b h = true.
Proof.
  revert b. induction records as [|c records IH]; intros b.
  - exists b, []. split; [done | apply sameTurn_refl].
  - change (lastOfRuns (b :: c :: records))
      with (if sameTurn b c then lastOfRuns (c :: records)
            else b :: lastOfRuns (c :: records)).
    destruct (sameTurn b c) eqn:Hbc.
    + destruct (IH c) as (h & rest & -> & Hch). exists h, rest.
      split; [done|]. by rewrite (sameTurn_left b c h Hbc).
    + exists b, (lastOfRuns (c :: records)). split; [done | apply sameTurn_refl].
Qed.

Lemma lastOfRuns_adjacent (records : list Message.t) (i : nat)
    (a b : Message.t) :
  lastOfRuns records !! i = Some a →
  lastOfRuns records !! S i = Some b →
  sameTurn a b = false.
Proof.
  revert i. induction records as [|x [|y records] IH]; intros i; [done|done|].
  change (lastOfRuns (x :: y :: records))
    with (if sameTurn x y then lastOfRuns (y :: records)
          else x :: lastOfRuns (y :: records)).
  destruct (sameTurn x y) eqn:Hxy; [apply IH|].
  destruct i as [|i]; [|apply IH].
  destruct (lastOfRuns_head y records) as (h & rest & -> & Hyh).
  intros [= <-] [= <-]. by rewrite <- (sameTurn_right y h x Hyh).
Qed.

Section ParserMore.
Context `{Runtime}.

Lemma decodeRecord_Some (line msgType timestamp text : string) :
  decodeRecord line = Some (msgType, timestamp, text) →
  (msgType = "user" ∨ msgType = "assistant")
  ∧ text ≠ EmptyString
  ∧ (String.length timestamp ≤ 19)%nat.
Proof.
  unfold decodeRecord. intros Hdecode.
  repeat (case_match; try discriminate); simplify_eq.
  all: repeat match goal with
       | Hrole : _ && _ = false |- _ =>
           apply andb_false_iff in Hrole;
           rewrite !negb_false_iff, !String.eqb_eq in Hrole
       | Htext : String.eqb _ EmptyString = false |- _ =>
           apply String.eqb_neq in Htext
       | Hlen : (19 <? _)%nat = false |- _ => apply Nat.ltb_ge in Hlen
       end.
  all: split; [done|]; split; [done|].
  all: rewrite ?Bytes_length_take; cbn [String.length]; lia.
Qed.

(** What every message of a parse satisfies. *)
Definition wellFormed (fpath : string) (m : Message.t) : Prop :=
  (Message.Role m = "user" ∨ Message.Role m = "assistant")
  ∧ Message.Type_ m = Message.Role m
  ∧ Message.Text m ≠ EmptyString
  ∧ (String.length (Message.Timestamp m) ≤ 19)%nat
  ∧ Message.SessionID m = extractSessionID fpath
  ∧ Message.Project m = extractProject fpath
  ∧ Message.FilePath m = fpath.

Lemma parseJSONL_wellFormed (fpath data : string) :
  Forall (wellFormed fpath) (parseJSONL fpath data).
Proof.
  rewrite parseJSONL_lastOfRuns. apply Forall_forall. intros m Hm.
  unfold fixMsgIndex in Hm.
  apply elem_of_lookup_imap in Hm as (i & m0 & -> & Hm0).
  apply list_elem_of_lookup_2 in Hm0.
  pose proof (elem_of_sublist _ _ _ Hm0 (lastOfRuns_sublist _)) as Hkept.
  unfold keptRecords in Hkept.
  apply list_elem_of_fmap in Hkept as ([[msgType timestamp] text] & -> & Hrec).
  apply list_elem_of_omap in Hrec as (line & _ & Hline).
  apply decodeRecord_Some in Hline as (Hrole & Htext & Hts).
  by repeat split.
Qed.

(** Every message of a parse is a user or assistant turn with a
    non-empty text, a time stamp of at most 19 bytes, and the session,
    project and path of its file. *)
Theorem parseJSONL_well_formed (fpath data : string) :
  Forall (wellFormed fpath) (parseJSONL fpath data).
Proof. apply parseJSONL_wellFormed. Qed.

(** No two neighbours in the output have the same time stamp and role. *)
Theorem parseJSONL_no_adjacent_duplicates (fpath data : string) (i : nat)
    (a b : Message.t) :
  parseJSONL fpath data !! i = Some a →
  parseJSONL fpath data !! S i = Some b →
  sameTurn a b = false.
Proof.
  rewrite parseJSONL_lastOfRuns. unfold fixMsgIndex.
  rewrite !list_lookup_imap.
  destruct (lastOfRuns (keptRecords fpath data) !! i) as [a0|] eqn:Ha; [|done].
  destruct (lastOfRuns (keptRecords fpath data) !! S i) as [b0|] eqn:Hb; [|done].
  intros [= <-] [= <-].
  exact (lastOfRuns_adjacent _ i a0 b0 Ha Hb).
Qed.

(** The kept records of two texts joined by a newline are those of the
    first followed by those of the second. *)
Lemma keptRecords_app (fpath a b : string) :
  keptRecords fpath (a +:+ String Bytes.LF b)
  = keptRecords fpath a ++ keptRecords fpath b.
Proof. unfold keptRecords. by rewrite Split_app, omap_app, fmap_app. Qed.

(** Lines that are empty, do not decode, are of another type or have no
    text can be put between any two lines without changing the parse. *)
Theorem parseJSONL_ignores_skipped_lines (fpath before skipped after : string) :
  Forall (λ line, decodeRecord line = None) (Bytes.Split skipped Bytes.LF) →
  parseJSONL fpath
    (before +:+ String Bytes.LF (skipped +:+ String Bytes.LF after))
  = parseJSONL fpath (before +:+ String Bytes.LF after).
Proof.
  intros Hskipped. rewrite !parseJSONL_lastOfRuns, !keptRecords_app.
  assert (keptRecords fpath skipped = []) as ->; [|done].
  unfold keptRecords. induction Hskipped as [|line lines Hline _ IH]; [done|].
  cbn [omap list_omap]. by rewrite Hline.
Qed.

(** A session identifier has at most twelve bytes. *)
Theorem extractSessionID_short (fpath : string) :
  (String.length (extractSessionID fpath) ≤ 12)%nat.
Proof.
  unfold extractSessionID.
  destruct (12 <? _)%nat eqn:Hlen.
  - rewrite Bytes_length_take. lia.
  - apply Nat.ltb_ge in Hlen. done.
Qed.

End ParserMore.

(** ** What a search of one file returns *)

Lemma wrap_small (bits z : Z) :
  0 < bits → - 2 ^ (bits - 1) ≤ z < 2 ^ (bits - 1) → wrap bits z = z.
Proof.
  intros Hbits Hz. unfold wrap.
  replace (2 ^ bits) with (2 * 2 ^ (bits - 1)).
  - rewrite Z.mod_small; lia.
  - rewrite <- Z.pow_succ_r by lia. f_equal. lia.
Qed.

Lemma int_small (z : Z) : - 2 ^ 63 ≤ z < 2 ^ 63 → int z = z.
Proof. intros Hz. unfold int. by apply wrap_small. Qed.

Lemma int32_small (z : Z) : - 2 ^ 31 ≤ z < 2 ^ 31 → int32 z = z.
Proof. intros Hz. unfold int32. by apply wrap_small. Qed.

(** The powers of two of the integer ranges, as numerals. *)
Ltac unfold_pow2 :=
  change (2 ^ 63) with 9223372036854775808 in *;
  change (2 ^ 62) with 4611686018427387904 in *;
  change (2 ^ 31) with 2147483648 in *.

(** The messages before index [j], at most [Before] of them. *)
Lemma contextBefore_spec (opts : SearchOpts.t) (messages : list Message.t)
    (j : nat) :
  SearchOpts.Before opts < 2 ^ 63 →
  Z.of_nat j < 2 ^ 63 →
  contextBefore opts messages (Z.of_nat j)
  = drop (j - Z.to_nat (SearchOpts.Before opts)) (take j messages).
Proof.
  intros HB Hj. unfold contextBefore.
  destruct (0 <? SearchOpts.Before opts) eqn:Hpos.
  - apply Z.ltb_lt in Hpos. rewrite int_small by (unfold_pow2; lia).
    unfold window. rewrite take_drop_commute. f_equal; [|f_equal]; case_match; lia.
  - apply Z.ltb_ge in Hpos.
    replace (Z.to_nat (SearchOpts.Before opts)) with 0%nat by lia.
    rewrite drop_ge; [done|]. rewrite length_take. lia.
Qed.

(** The messages after index [j], at most [After] of them. *)
Lemma contextAfter_spec (opts : SearchOpts.t) (messages : list Message.t)
    (j : nat) :
  Z.of_nat (length messages) + SearchOpts.After opts < 2 ^ 63 →
  (j < length messages)%nat →
  contextAfter opts messages (Z.of_nat j)
  = take (Z.to_nat (SearchOpts.After opts)) (drop (S j) messages).
Proof.
  intros HA Hj. unfold contextAfter.
  destruct (0 <? SearchOpts.After opts) eqn:Hpos.
  - apply Z.ltb_lt in Hpos.
    rewrite (int_small (Z.of_nat j + SearchOpts.After opts))
      by (unfold_pow2; lia).
    rewrite int_small by (unfold_pow2; lia).
    unfold window. replace (Z.to_nat (Z.of_nat j + 1)) with (S j) by lia.
    destruct (Z.of_nat (length messages) <? _) eqn:Hend.
    + apply Z.ltb_lt in Hend.
      rewrite !take_ge; [done|rewrite length_drop; lia..].
    + f_equal. lia.
  - apply Z.ltb_ge in Hpos.
    by replace (Z.to_nat (SearchOpts.After opts)) with 0%nat by lia.
Qed.

Section SearchFileFacts.
Context `{Runtime}.

Lemma searchMessages_messages (re : Regexp) (opts : SearchOpts.t)
    (messages rest : list Message.t) (i : nat) (matches : list Match.t) :
  Match.Message <$> searchMessages re opts messages rest i matches
  = (Match.Message <$> matches)
    ++ filter (λ msg, selects re opts msg = true) rest.
Proof.
  revert i matches. induction rest as [|msg rest IH]; intros i matches.
  - cbn [searchMessages]. by rewrite filter_nil, app_nil_r.
  - cbn [searchMessages]. rewrite filter_cons.
    destruct (selects re opts msg) eqn:Hsel.
    + rewrite decide_True by done. unfold selects in Hsel.
      apply andb_true_iff in Hsel as [Hrole Hmatch].
      apply negb_true_iff in Hrole. rewrite Hrole, Hmatch. cbn [negb].
      rewrite IH, fmap_app. cbn. by rewrite <- app_assoc.
    + rewrite decide_False by done. unfold selects in Hsel.
      apply andb_false_iff in Hsel as [Hrole|Hmatch].
      * apply negb_false_iff in Hrole. rewrite Hrole. apply IH.
      * rewrite Hmatch. cbn [negb]. case_match; apply IH.
Qed.

Lemma searchMessages_matchAt (re : Regexp) (opts : SearchOpts.t)
    (messages rest : list Message.t) (i : nat) (matches : list Match.t) :
  (∀ k msg, rest !! k = Some msg → messages !! (i + k)%nat = Some msg) →
  Forall (λ m, ∃ j, matchAt opts messages j m) matches →
  Forall (λ m, ∃ j, matchAt opts messages j m)
         (searchMessages re opts messages rest i matches).
Proof.
  revert i matches. induction rest as [|msg rest IH]; intros i matches Hrest Hacc.
  - done.
  - assert (Htail : ∀ k msg', rest !! k = Some msg' →
                              messages !! (S i + k)%nat = Some msg').
    { intros k msg' Hk. specialize (Hrest (S k) msg' Hk).
      by replace (S i + k)%nat with (i + S k)%nat by lia. }
    cbn [searchMessages]. repeat case_match; try by apply IH.
    apply IH; [done|]. apply Forall_app. split; [done|].
    constructor; [|done]. exists i. repeat split.
    specialize (Hrest 0%nat msg eq_refl). by rewrite Nat.add_0_r in Hrest.
Qed.

(** A readable file that passes the prefilter yields exactly its
    messages that pass the role filter and match the expression, in file
    order, and is not counted as skipped. *)
Theorem searchFileTracked_exact (filepath data : string) (re : Regexp)
    (prefilter : list string) (opts : SearchOpts.t) :
  ReadFile filepath = Some data →
  prefilterMatch data prefilter = true →
  Match.Message <$> (searchFileTracked filepath re prefilter opts).1
  = filter (λ msg, selects re opts msg = true) (parseJSONL filepath data)
  ∧ (searchFileTracked filepath re prefilter opts).2 = false.
Proof.
  intros Hread Hpass. unfold searchFileTracked. rewrite Hread, Hpass.
  cbn [negb]. destruct (parseJSONL filepath data) as [|msg messages] eqn:Hparse.
  - done.
  - cbn [length Nat.eqb fst snd]. split; [|done].
    by rewrite searchMessages_messages.
Qed.

Lemma parseJSONL_lookup_MsgIndex (fpath data : string) (j : nat)
    (msg : Message.t) :
  parseJSONL fpath data !! j = Some msg → Message.MsgIndex msg = Z.of_nat j.
Proof.
  unfold parseJSONL. destruct (parseLines fpath data) as [messages idx].
  unfold fixMsgIndex. rewrite list_lookup_imap.
  destruct (messages !! j); [|done]. by intros [= <-].
Qed.

(** Every match of a file carries its context: it is the message at its
    own ordinal, preceded by the up to [Before] messages right before it
    and followed by the up to [After] messages right after it, clamped at
    both ends of the session. *)
Theorem searchFileTracked_context (filepath data : string) (re : Regexp)
    (prefilter : list string) (opts : SearchOpts.t) (m : Match.t) :
  ReadFile filepath = Some data →
  SearchOpts.Before opts < 2 ^ 63 →
  Z.of_nat (length (parseJSONL filepath data))
  + Z.max 0 (SearchOpts.After opts) < 2 ^ 63 →
  m ∈ (searchFileTracked filepath re prefilter opts).1 →
  ∃ j,
    parseJSONL filepath data !! j = Some (Match.Message m)
    ∧ Message.MsgIndex (Match.Message m) = Z.of_nat j
    ∧ Match.ContextBefore m
      = drop (j - Z.to_nat (SearchOpts.Before opts))
             (take j (parseJSONL filepath data))
    ∧ Match.ContextAfter m
      = take (Z.to_nat (SearchOpts.After opts))
             (drop (S j) (parseJSONL filepath data)).
Proof.
  intros Hread HB HA. unfold searchFileTracked. rewrite Hread.
  destruct (prefilterMatch data prefilter); cbn [negb];
    [|by intros ?%not_elem_of_nil].
  destruct (length (parseJSONL filepath data) =? 0)%nat;
    [by intros ?%not_elem_of_nil|].
  cbn [fst]. intros Hm.
  pose proof (searchMessages_matchAt re opts (parseJSONL filepath data)
                (parseJSONL filepath data) 0 []) as Hall.
  assert (Hself : ∀ k msg, parseJSONL filepath data !! k = Some msg →
                           parseJSONL filepath data !! (0 + k)%nat = Some msg)
    by done.
  specialize (Hall Hself (Forall_nil_2 _)). rewrite Forall_forall in Hall.
  destruct (Hall m Hm) as (j & Hj & Hbefore & Hafter & _).
  exists j. pose proof (lookup_lt_Some _ _ _ Hj) as Hlt.
  split; [done|]. split; [by apply (parseJSONL_lookup_MsgIndex filepath data)|].
  rewrite Hbefore, Hafter. split.
  - apply contextBefore_spec; unfold_pow2; lia.
  - apply contextAfter_spec; unfold_pow2; lia.
Qed.

End SearchFileFacts.

(** ** What a search over all files returns *)

Lemma countSkipped_bounds (results : list (list Match.t * bool)) (n : Z) :
  0 ≤ n →
  n + Z.of_nat (length results) < 2 ^ 31 →
  n ≤ foldl (λ (n : Z) (r : list Match.t * bool),
               if snd r then int32 (n + 1) else n) n results
    ≤ n + Z.of_nat (length results).
Proof.
  revert n. induction results as [|r results IH]; intros n Hn Hlen;
    cbn [foldl length] in *; [lia|].
  destruct (snd r).
  - rewrite int32_small by (unfold_pow2; lia).
    specialize (IH (n + 1) ltac:(lia) ltac:(lia)). lia.
  - specialize (IH n Hn ltac:(lia)). lia.
Qed.

Lemma countSkipped_none (results : list (list Match.t * bool)) (n : Z) :
  Forall (λ r, snd r = false) results →
  foldl (λ (n : Z) (r : list Match.t * bool),
           if snd r then int32 (n + 1) else n) n results = n.
Proof.
  induction 1 as [|r results Hr _ IH]; cbn [foldl]; [done|]. by rewrite Hr.
Qed.

Section SearchAllFacts.
Context `{Runtime}.

(** What a message of a parse says about its file. *)
Lemma parseJSONL_FilePath (fpath data : string) (msg : Message.t) :
  msg ∈ parseJSONL fpath data → Message.FilePath msg = fpath.
Proof.
  rewrite parseJSONL_lastOfRuns. unfold fixMsgIndex.
  intros (i & m0 & -> & Hm0)%elem_of_lookup_imap.
  apply list_elem_of_lookup_2 in Hm0.
  pose proof (elem_of_sublist _ _ _ Hm0 (lastOfRuns_sublist _)) as Hkept.
  unfold keptRecords in Hkept.
  by apply list_elem_of_fmap in Hkept as ([[? ?] ?] & -> & _).
Qed.

Lemma searchFileTracked_elem (filepath : string) (re : Regexp)
    (prefilter : list string) (opts : SearchOpts.t) (m : Match.t) :
  m ∈ (searchFileTracked filepath re prefilter opts).1 →
  selects re opts (Match.Message m) = true
  ∧ Message.FilePath (Match.Message m) = filepath.
Proof.
  unfold searchFileTracked.
  destruct (ReadFile filepath) as [data|]; [|by intros ?%not_elem_of_nil].
  destruct (prefilterMatch data prefilter); cbn [negb];
    [|by intros ?%not_elem_of_nil].
  destruct (length (parseJSONL filepath data) =? 0)%nat;
    [by intros ?%not_elem_of_nil|].
  cbn [fst]. intros Hm.
  apply (list_elem_of_fmap_2 Match.Message) in Hm.
  rewrite searchMessages_messages in Hm. cbn [fmap list_fmap app] in Hm.
  apply list_elem_of_filter in Hm as [Hsel Hin].
  split; [done | by apply (parseJSONL_FilePath filepath data)].
Qed.

Lemma fileResults_elem (re : Regexp) (pattern : string) (opts : SearchOpts.t)
    (files : list string) (m : Match.t) :
  m ∈ concat (map fst (fileResults re pattern opts files)) →
  selects re opts (Match.Message m) = true
  ∧ Message.FilePath (Match.Message m) ∈ files.
Proof.
  rewrite list_elem_of_In, in_concat. intros (ms & Hms & Hm).
  apply in_map_iff in Hms as (r & <- & Hr).
  unfold fileResults in Hr. apply in_map_iff in Hr as (fp & <- & Hfp).
  apply list_elem_of_In in Hm, Hfp.
  apply searchFileTracked_elem in Hm as [Hsel Hpath].
  split; [done | by rewrite Hpath].
Qed.

(** Everything a normal return of [regexSearch] determines. *)
Lemma regexSearch_ok_inv (pattern searchPath : string) (opts : SearchOpts.t)
    (matches : list Match.t) (stats : SearchStats.t) :
  regexSearch pattern searchPath opts (SearchOk matches stats) →
  ∃ re files sorted,
    Compile ("(?i)" +:+ pattern) = Some re
    ∧ findSessionFiles searchPath (SearchOpts.MaxDays opts) = (files, true)
    ∧ sorted ≡ₚ concat (map fst (fileResults re pattern opts files))
    ∧ matches = take (Z.to_nat (SearchOpts.MaxResults opts)) sorted
    ∧ 0 ≤ SearchOpts.MaxResults opts
    ∧ stats
      = {| SearchStats.FilesTotal := Z.of_nat (length files);
           SearchStats.PrefilterSkipped :=
             countSkipped (fileResults re pattern opts files);
           SearchStats.RegexSearched :=
             Z.of_nat (length files)
             - countSkipped (fileResults re pattern opts files) |}.
Proof.
  inversion 1 as [| |re files arrival Hre Hfiles Harrival Hfinish].
  exists re, files, (sortSlice Match.t newerFirst (concat arrival)).
  split; [done|]. split; [done|]. split; [by apply arrival_merged|].
  unfold finish in Hfinish.
  destruct (SearchOpts.MaxResults opts <? _) eqn:Hlen.
  - destruct (SearchOpts.MaxResults opts <? 0) eqn:Hneg; [done|].
    apply Z.ltb_ge in Hneg. by injection Hfinish as <- <-.
  - apply Z.ltb_ge in Hlen. injection Hfinish as <- <-.
    split; [|split; [lia | done]]. rewrite take_ge; [done | lia].
Qed.

(** Every match that [regexSearch] reports passes the role filter, is
    matched by the compiled expression, and lies in one of the session
    files that were found. *)
Theorem regexSearch_sound (pattern searchPath : string) (opts : SearchOpts.t)
    (matches : list Match.t) (stats : SearchStats.t) :
  regexSearch pattern searchPath opts (SearchOk matches stats) →
  ∃ re files,
    Compile ("(?i)" +:+ pattern) = Some re
    ∧ findSessionFiles searchPath (SearchOpts.MaxDays opts) = (files, true)
    ∧ Forall (λ m, selects re opts (Match.Message m) = true
                   ∧ Message.FilePath (Match.Message m) ∈ files) matches.
Proof.
  intros (re & files & sorted & Hre & Hfiles & Hsorted & -> & _)%regexSearch_ok_inv.
  exists re, files. split; [done|]. split; [done|].
  apply Forall_forall. intros m Hm.
  apply (fileResults_elem re pattern opts files).
  rewrite <- Hsorted. by apply (elem_of_sublist _ _ _ Hm), sublist_take.
Qed.


(** A limit of zero gives an empty result, and with a negative limit the
    call never returns matches: it panics on the slice expression unless
    it has failed before. *)
Theorem regexSearch_non_positive_limit (pattern searchPath : string)
    (opts : SearchOpts.t) (r : SearchResult) :
  SearchOpts.MaxResults opts ≤ 0 →
  regexSearch pattern searchPath opts r →
  match r with
  | SearchOk matches _ => SearchOpts.MaxResults opts = 0 ∧ matches = []
  | SearchError | SearchPanic => True
  end.
Proof.
  intros Hlimit Hrun. destruct r as [| |matches stats]; [done|done|].
  apply regexSearch_ok_inv in Hrun
    as (re & files & sorted & _ & _ & _ & -> & Hpos & _).
  split; [lia|]. by replace (Z.to_nat (SearchOpts.MaxResults opts)) with 0%nat by lia.
Qed.

(** The counters of a search add up: with fewer than 2^31 files the
    number of skipped files lies between zero and the number of files,
    the rest was searched, and nothing is skipped when the prefilter is
    off. *)
Theorem regexSearch_stats (pattern searchPath : string) (opts : SearchOpts.t)
    (matches : list Match.t) (stats : SearchStats.t) :
  regexSearch pattern searchPath opts (SearchOk matches stats) →
  SearchStats.FilesTotal stats < 2 ^ 31 →
  0 ≤ SearchStats.PrefilterSkipped stats ≤ SearchStats.FilesTotal stats
  ∧ SearchStats.PrefilterSkipped stats + SearchStats.RegexSearched stats
    = SearchStats.FilesTotal stats
  ∧ (extractPrefilterLiterals pattern = [] →
     SearchStats.PrefilterSkipped stats = 0).
Proof.
  intros (re & files & sorted & _ & _ & _ & _ & _ & ->)%regexSearch_ok_inv.
  cbn [SearchStats.FilesTotal SearchStats.PrefilterSkipped
       SearchStats.RegexSearched]. intros Hfiles.
  assert (Hlen : length (fileResults re pattern opts files) = length files).
  { unfold fileResults. apply length_map. }
  split; [|split; [lia|]].
  - pose proof (countSkipped_bounds (fileResults re pattern opts files) 0) as Hb.
    unfold countSkipped. rewrite Hlen in Hb. lia.
  - intros Hoff. unfold countSkipped. apply countSkipped_none.
    unfold fileResults. rewrite Hoff. apply Forall_forall.
    intros r (fp & <- & _)%list_elem_of_In%in_map_iff.
    unfold searchFileTracked. destruct (ReadFile fp) as [data|]; [|done].
    cbn. by destruct (length (parseJSONL fp data) =? 0)%nat.
Qed.

End SearchAllFacts.

(** ** Cosine similarity *)

Lemma SFmul_comm (prec emax : Z) (x y : spec_float) :
  SFmul prec emax x y = SFmul prec emax y x.
Proof.
  destruct x as [sx|sx| |sx mx ex], y as [sy|sy| |sy my ey]; cbv [SFmul];
    rewrite ?(xorb_comm sx sy); try done.
  by rewrite (Pos.mul_comm mx my), (Z.add_comm ex ey).
Qed.

Lemma cosineSums_swap (a b : list spec_float) (dot normA normB : spec_float) :
  cosineSums b a dot normB normA
  = let '(dot', normA', normB') := cosineSums a b dot normA normB in
    (dot', normB', normA').
Proof.
  revert b dot normA normB.
  induction a as [|x a IH]; intros [|y b] dot normA normB; try done.
  cbn [cosineSums]. rewrite IH. unfold Float.mul64.
  by rewrite (SFmul_comm Float.prec64 Float.emax64 (Float.float64 y)).
Qed.

(** Cosine similarity is symmetric, bit for bit. *)
Theorem cosineSimilarity_symmetric (a b : list spec_float) :
  cosineSimilarity a b = cosineSimilarity b a.
Proof.
  unfold cosineSimilarity.
  rewrite (Nat.eqb_sym (length b) (length a)).
  destruct (Nat.eqb_spec (length a) (length b)) as [Hlen|_]; [|done].
  rewrite <- Hlen. cbn [negb orb].
  destruct (length a =? 0)%nat; [done|].
  rewrite (cosineSums_swap a b).
  destruct (cosineSums a b Float.zero Float.zero Float.zero)
    as [[dot normA] normB].
  unfold Float.mul64.
  by rewrite (SFmul_comm _ _ (Float.sqrt64 normB)).
Qed.

Lemma zero_below_threshold : Float.gtb Float.zero minSimilarity = false.
Proof. vm_compute. reflexivity. Qed.

Section DimensionFacts.
Context `{Runtime}.

(** An entry whose vector has another length than the query vector, or
    any entry when the query vector is empty, is never a candidate. *)
Theorem scanEntry_dimension_mismatch (opts : SearchOpts.t) (cutoff : option Z)
    (queryVec : list spec_float) (candidates : list scored.t)
    (e : IndexEntry.t) :
  length queryVec ≠ length (IndexEntry.Vector e) ∨ queryVec = [] →
  scanEntry opts cutoff queryVec candidates e = candidates.
Proof.
  intros Hdim.
  assert (Hzero : cosineSimilarity queryVec (IndexEntry.Vector e) = Float.zero).
  { unfold cosineSimilarity. destruct Hdim as [Hne| ->].
    - apply Nat.eqb_neq in Hne. by rewrite Hne.
    - cbn [length]. by rewrite orb_true_r. }
  unfold scanEntry. rewrite Hzero, zero_below_threshold.
  by repeat case_match.
Qed.

End DimensionFacts.

Lemma scanEntry_dimension_mismatch_witness :
  @scanEntry (sampleRuntime []) (demoOpts 10) None
     [Float.const32 1 1; Float.const32 0 1] []
     {| IndexEntry.SessionID := "session-0001"; IndexEntry.MsgIndex := 0;
        IndexEntry.Role := "user";
        IndexEntry.Timestamp := "2024-05-01T10:00:00";
        IndexEntry.Preview := "ping"; IndexEntry.FilePath := demoPath;
        IndexEntry.Vector := [Float.const32 1 1] |}
  = [].
Proof.
  apply (@scanEntry_dimension_mismatch (sampleRuntime [])).
  left. cbn [length IndexEntry.Vector]. lia.
Defined.

(** ** Incremental indexing *)

Section IndexingFacts.
Context `{Runtime} `{IndexRuntime}.

Lemma foldl_embedMessage (fpath : string) (messages : list Message.t)
    (entries : list IndexEntry.t) (calls : nat) :
  foldl (embedMessage fpath) (entries, calls) messages
  = (entries ++ embeddedEntries fpath calls messages,
     (calls + length messages)%nat).
Proof.
  revert entries calls. induction messages as [|msg messages IH];
    intros entries calls; cbn [foldl embeddedEntries length].
  - by rewrite app_nil_r, Nat.add_0_r.
  - unfold embedMessage at 2. fold (embedText msg).
    destruct (Embed calls (embedText msg)) as [vec|].
    + fold (entryFor fpath msg vec). rewrite IH, <- app_assoc.
      f_equal. lia.
    + rewrite IH. f_equal. lia.
Qed.

Lemma embeddedEntries_FilePath (fpath : string) (calls : nat)
    (messages : list Message.t) :
  Forall (λ e, IndexEntry.FilePath e = fpath
               ∧ (String.length (IndexEntry.Preview e) ≤ previewLen)%nat)
         (embeddedEntries fpath calls messages).
Proof.
  revert calls. induction messages as [|msg messages IH]; intros calls;
    cbn [embeddedEntries]; [done|].
  destruct (Embed calls (embedText msg)); [|apply IH].
  constructor; [|apply IH]. split; [done|]. cbn [entryFor IndexEntry.Preview].
  destruct (previewLen <? _)%nat eqn:Hlen.
  - rewrite Bytes_length_take. lia.
  - by apply Nat.ltb_ge in Hlen.
Qed.

(** How one iteration of the file loop can end. *)
Inductive indexFileCase (st : IndexPass.t) (fpath : string)
    : IndexPass.t → Prop :=
| case_stat_failed :
    Stat fpath = None →
    indexFileCase st fpath st
| case_unchanged modTime meta :
    Stat fpath = Some modTime →
    fileMeta (IndexPass.idx st) fpath = Some meta →
    After modTime (FileMetadata.LastModified meta) = false →
    indexFileCase st fpath
      {| IndexPass.idx := IndexPass.idx st;
         IndexPass.calls := IndexPass.calls st;
         IndexPass.totalNew := IndexPass.totalNew st;
         IndexPass.totalSkipped := int (IndexPass.totalSkipped st + 1) |}
| case_nothing_to_index modTime :
    Stat fpath = Some modTime →
    (∀ meta, fileMeta (IndexPass.idx st) fpath = Some meta →
             After modTime (FileMetadata.LastModified meta) = true) →
    (ReadFile fpath = None
     ∨ ∃ data, ReadFile fpath = Some data ∧ parseJSONL fpath data = []) →
    indexFileCase st fpath
      {| IndexPass.idx :=
           {| Index.Entries := keptEntries (IndexPass.idx st) fpath;
              Index.Files := Index.Files (IndexPass.idx st);
              Index.Project := Index.Project (IndexPass.idx st) |};
         IndexPass.calls := IndexPass.calls st;
         IndexPass.totalNew := IndexPass.totalNew st;
         IndexPass.totalSkipped := IndexPass.totalSkipped st |}
| case_indexed modTime data files :
    Stat fpath = Some modTime →
    (∀ meta, fileMeta (IndexPass.idx st) fpath = Some meta →
             After modTime (FileMetadata.LastModified meta) = true) →
    ReadFile fpath = Some data →
    parseJSONL fpath data ≠ [] →
    Index.Files (IndexPass.idx st) = Some files →
    indexFileCase st fpath
      {| IndexPass.idx :=
           {| Index.Entries :=
                keptEntries (IndexPass.idx st) fpath
                ++ embeddedEntries fpath (IndexPass.calls st)
                     (parseJSONL fpath data);
              Index.Files :=
                Some (<[fpath := {| FileMetadata.FilePath := fpath;
                                    FileMetadata.LastModified := modTime |}]>
                        files);
              Index.Project := Index.Project (IndexPass.idx st) |};
         IndexPass.calls :=
           (IndexPass.calls st + length (parseJSONL fpath data))%nat;
         IndexPass.totalNew := int (IndexPass.totalNew st + 1);
         IndexPass.totalSkipped := IndexPass.totalSkipped st |}.

Lemma parseAndIndex_case (st st' : IndexPass.t) (fpath : string) (modTime : Z) :
  Stat fpath = Some modTime →
  (∀ meta, fileMeta (IndexPass.idx st) fpath = Some meta →
           After modTime (FileMetadata.LastModified meta) = true) →
  parseAndIndex st (keptEntries (IndexPass.idx st) fpath) fpath modTime
  = Some st' →
  indexFileCase st fpath st'.
Proof.
  intros Hstat Hchanged. unfold parseAndIndex.
  destruct (ReadFile fpath) as [data|] eqn:Hread.
  - destruct (length (parseJSONL fpath data) =? 0)%nat eqn:Hlen.
    + intros [= <-]. apply Nat.eqb_eq, nil_length_inv in Hlen.
      apply (case_nothing_to_index st fpath modTime); [done..|].
      right. by exists data.
    + rewrite foldl_embedMessage.
      destruct (Index.Files (IndexPass.idx st)) as [files|] eqn:Hfiles; [|done].
      intros [= <-].
      apply (case_indexed st fpath modTime data files); try done.
      intros Hnil. rewrite Hnil in Hlen. done.
  - intros [= <-]. apply (case_nothing_to_index st fpath modTime); [done..|].
    by left.
Qed.

Lemma indexFile_case (st st' : IndexPass.t) (fpath : string) :
  indexFile st fpath = Some st' → indexFileCase st fpath st'.
Proof.
  unfold indexFile. destruct (Stat fpath) as [modTime|] eqn:Hstat.
  - destruct (fileMeta (IndexPass.idx st) fpath) as [meta|] eqn:Hmeta.
    + destruct (After modTime (FileMetadata.LastModified meta)) eqn:Hafter;
        cbn [negb].
      * intros Hrest. apply (parseAndIndex_case st st' fpath modTime Hstat).
        -- intros meta' Hmeta'. congruence.
        -- unfold keptEntries. by rewrite Hmeta.
      * intros [= <-]. by apply (case_unchanged st fpath modTime meta).
    + intros Hrest. apply (parseAndIndex_case st st' fpath modTime Hstat).
      * intros meta' Hmeta'. congruence.
      * unfold keptEntries. by rewrite Hmeta.
  - intros [= <-]. by apply case_stat_failed.
Qed.

Lemma filter_none {A : Type} (P : A → Prop) `{∀ x, Decision (P x)}
    (l : list A) :
  Forall (λ x, ¬ P x) l → filter P l = [].
Proof.
  induction 1 as [|x l Hx _ IH]; [done|].
  by rewrite filter_cons, decide_False.
Qed.

Lemma keptEntries_elem (idx : Index.t) (fpath : string) (e : IndexEntry.t) :
  e ∈ keptEntries idx fpath → e ∈ Index.Entries idx.
Proof.
  unfold keptEntries. destruct (fileMeta idx fpath); [|done].
  unfold removeEntriesForFile. rewrite removeEntriesForFile_fold. cbn [app].
  by intros [_ ?]%list_elem_of_filter.
Qed.

Lemma keptEntries_other (idx : Index.t) (fpath other : string) :
  other ≠ fpath →
  filter (λ e, IndexEntry.FilePath e = other) (keptEntries idx fpath)
  = filter (λ e, IndexEntry.FilePath e = other) (Index.Entries idx).
Proof.
  intros Hne. unfold keptEntries. destruct (fileMeta idx fpath); [|done].
  by apply removeEntriesForFile_other_file.
Qed.

(** In an index where every entry has metadata, nothing of the file is
    left in the entries an iteration for it starts from. *)
Lemma keptEntries_same (idx : Index.t) (fpath : string) :
  recorded idx →
  filter (λ e, IndexEntry.FilePath e = fpath) (keptEntries idx fpath) = [].
Proof.
  intros Hrec. apply filter_none, Forall_forall. intros e He Hpath.
  unfold keptEntries in He.
  destruct (fileMeta idx fpath) as [meta|] eqn:Hmeta.
  - by apply removeEntriesForFile_evicts in He.
  - specialize (Hrec e He). rewrite Hpath, Hmeta in Hrec. by destruct Hrec.
Qed.

Lemma embeddedEntries_other (fpath other : string) (calls : nat)
    (messages : list Message.t) :
  other ≠ fpath →
  filter (λ e, IndexEntry.FilePath e = other)
         (embeddedEntries fpath calls messages) = [].
Proof.
  intros Hne. apply filter_none.
  eapply Forall_impl; [apply embeddedEntries_FilePath|].
  intros e [Hpath _]. congruence.
Qed.

Lemma embeddedEntries_same (fpath : string) (calls : nat)
    (messages : list Message.t) :
  filter (λ e, IndexEntry.FilePath e = fpath)
         (embeddedEntries fpath calls messages)
  = embeddedEntries fpath calls messages.
Proof.
  pose proof (embeddedEntries_FilePath fpath calls messages) as Hall.
  induction Hall as [|e l [He _] _ IH]; [done|].
  by rewrite filter_cons, decide_True, IH.
Qed.

Lemma indexFile_other (st st' : IndexPass.t) (fpath other : string) :
  indexFile st fpath = Some st' →
  other ≠ fpath →
  filter (λ e, IndexEntry.FilePath e = other)
         (Index.Entries (IndexPass.idx st'))
  = filter (λ e, IndexEntry.FilePath e = other)
           (Index.Entries (IndexPass.idx st))
  ∧ fileMeta (IndexPass.idx st') other = fileMeta (IndexPass.idx st) other.
Proof.
  intros Hstep%indexFile_case Hne.
  destruct Hstep as [Hstat|modTime meta Hstat Hmeta Hafter
                    |modTime Hstat Hchanged Hnothing
                    |modTime data files Hstat Hchanged Hread Hparse Hfiles];
    cbn [IndexPass.idx Index.Entries]; try done.
  - split; [by apply keptEntries_other | done].
  - split.
    + rewrite filter_app, keptEntries_other, embeddedEntries_other by done.
      by rewrite app_nil_r.
    + unfold fileMeta. rewrite Hfiles. cbn. by rewrite lookup_insert_ne.
Qed.


(** When a new or modified file with messages is indexed, the entries of
    the file are afterwards exactly those of its current messages whose
    embedding succeeded, in order, and its metadata holds the
    modification time that was seen; nothing of an earlier version of
    the file remains. *)
Theorem indexFile_replaces_entries (st st' : IndexPass.t)
    (fpath data : string) (modTime : Z) :
  recorded (IndexPass.idx st) →
  Stat fpath = Some modTime →
  (∀ meta, fileMeta (IndexPass.idx st) fpath = Some meta →
           After modTime (FileMetadata.LastModified meta) = true) →
  ReadFile fpath = Some data →
  parseJSONL fpath data ≠ [] →
  indexFile st fpath = Some st' →
  filter (λ e, IndexEntry.FilePath e = fpath)
         (Index.Entries (IndexPass.idx st'))
  = embeddedEntries fpath (IndexPass.calls st) (parseJSONL fpath data)
  ∧ fileMeta (IndexPass.idx st') fpath
    = Some {| FileMetadata.FilePath := fpath;
              FileMetadata.LastModified := modTime |}
  ∧ IndexPass.totalNew st' = int (IndexPass.totalNew st + 1).
Proof.
  intros Hrec Hstat Hchanged Hread Hparse Hstep%indexFile_case.
  destruct Hstep as [Hstat'|modTime' meta Hstat' Hmeta Hafter
                    |modTime' Hstat' Hchanged' Hnothing
                    |modTime' data' files Hstat' Hchanged' Hread' Hparse' Hfiles].
  - congruence.
  - assert (modTime' = modTime) as -> by congruence.
    specialize (Hchanged meta Hmeta). congruence.
  - destruct Hnothing as [Hnone|(data' & Hread' & Hnil)]; [congruence|].
    assert (data' = data) as -> by congruence. done.
  - assert (modTime' = modTime) as -> by congruence.
    assert (data' = data) as -> by congruence.
    cbn [IndexPass.idx Index.Entries IndexPass.totalNew]. split; [|split; [|done]].
    + by rewrite filter_app, keptEntries_same, embeddedEntries_same.
    + unfold fileMeta. cbn. by rewrite lookup_insert_eq.
Qed.

(** Iterations keep the index consistent: every entry has metadata for
    its file, and every preview is at most [previewLen] bytes long. *)
Theorem indexFile_invariants (st st' : IndexPass.t) (fpath : string) :
  recorded (IndexPass.idx st) →
  Forall (λ e, (String.length (IndexEntry.Preview e) ≤ previewLen)%nat)
         (Index.Entries (IndexPass.idx st)) →
  indexFile st fpath = Some st' →
  recorded (IndexPass.idx st')
  ∧ Forall (λ e, (String.length (IndexEntry.Preview e) ≤ previewLen)%nat)
           (Index.Entries (IndexPass.idx st')).
Proof.
  intros Hrec Hprev Hstep%indexFile_case.
  assert (Hkept : Forall (λ e, (String.length (IndexEntry.Preview e)
                                ≤ previewLen)%nat)
                         (keptEntries (IndexPass.idx st) fpath)).
  { rewrite Forall_forall in Hprev. apply Forall_forall.
    intros e He%keptEntries_elem. by apply Hprev. }
  destruct Hstep as [Hstat|modTime meta Hstat Hmeta Hafter
                    |modTime Hstat Hchanged Hnothing
                    |modTime data files Hstat Hchanged Hread Hparse Hfiles];
    cbn [IndexPass.idx Index.Entries]; try done.
  - split; [|done]. intros e He%keptEntries_elem. by apply Hrec.
  - split.
    + intros e [He|He]%elem_of_app; unfold fileMeta; cbn.
      * apply keptEntries_elem in He. specialize (Hrec e He).
        unfold fileMeta in Hrec. rewrite Hfiles in Hrec. cbn in Hrec.
        rewrite lookup_insert. by case_decide.
      * pose proof (embeddedEntries_FilePath fpath (IndexPass.calls st)
                      (parseJSONL fpath data)) as Hall.
        rewrite Forall_forall in Hall. destruct (Hall e He) as [-> _].
        by rewrite lookup_insert_eq.
    + apply Forall_app. split; [done|].
      eapply Forall_impl; [apply embeddedEntries_FilePath|]. by intros e [_ ?].
Qed.

Lemma removeEntriesForFile_absent (entries : list IndexEntry.t)
    (fpath : string) :
  filter (λ e, IndexEntry.FilePath e = fpath) entries = [] →
  removeEntriesForFile entries fpath = entries.
Proof.
  unfold removeEntriesForFile. rewrite removeEntriesForFile_fold. cbn [app].
  induction entries as [|e entries IH]; [done|].
  rewrite !filter_cons.
  destruct (decide (IndexEntry.FilePath e = fpath)) as [Heq|Hne]; [done|].
  intros Hrest. rewrite decide_True by done. by rewrite IH.
Qed.

Lemma removeEntriesForFile_gone (entries : list IndexEntry.t) (fpath : string) :
  filter (λ e, IndexEntry.FilePath e = fpath)
         (removeEntriesForFile entries fpath) = [].
Proof.
  apply filter_none, Forall_forall. intros e He.
  by apply removeEntriesForFile_evicts in He.
Qed.

Lemma index_eta (idx : Index.t) :
  {| Index.Entries := Index.Entries idx; Index.Files := Index.Files idx;
     Index.Project := Index.Project idx |} = idx.
Proof. by destruct idx. Qed.

(** An iteration for a settled file changes neither the index nor the
    number of files indexed, and asks for no embedding. *)
Lemma indexFile_settled (st : IndexPass.t) (fpath : string) :
  settled (IndexPass.idx st) fpath →
  ∃ st', indexFile st fpath = Some st'
         ∧ IndexPass.idx st' = IndexPass.idx st
         ∧ IndexPass.calls st' = IndexPass.calls st
         ∧ IndexPass.totalNew st' = IndexPass.totalNew st.
Proof.
  unfold indexFile.
  intros [Hstat|[(modTime & meta & Hstat & Hmeta & Hafter)
                |(modTime & Hstat & Hchanged & Hnothing & Hnone)]];
    rewrite Hstat.
  - by exists st.
  - rewrite Hmeta, Hafter. cbn [negb]. by eexists.
  - assert (Hrest : ∀ entries,
              entries = Index.Entries (IndexPass.idx st) →
              ∃ st', parseAndIndex st entries fpath modTime = Some st'
                     ∧ IndexPass.idx st' = IndexPass.idx st
                     ∧ IndexPass.calls st' = IndexPass.calls st
                     ∧ IndexPass.totalNew st' = IndexPass.totalNew st).
    { intros entries ->. unfold parseAndIndex.
      destruct Hnothing as [Hread|(data & Hread & Hparse)]; rewrite Hread.
      - eexists. split; [done|]. cbn. by rewrite index_eta.
      - rewrite Hparse. cbn [length Nat.eqb].
        eexists. split; [done|]. cbn. by rewrite index_eta. }
    destruct (fileMeta (IndexPass.idx st) fpath) as [meta|] eqn:Hmeta.
    + rewrite (Hchanged meta eq_refl). cbn [negb]. apply Hrest.
      apply removeEntriesForFile_absent, Hnone. by eexists.
    + by apply Hrest.
Qed.

(** After an iteration for a file, the file is settled. *)
Lemma indexFile_settles (st st' : IndexPass.t) (fpath : string) :
  (∀ t, After t t = false) →
  indexFile st fpath = Some st' →
  settled (IndexPass.idx st') fpath.
Proof.
  intros Hirrefl Hstep%indexFile_case.
  destruct Hstep as [Hstat|modTime meta Hstat Hmeta Hafter
                    |modTime Hstat Hchanged Hnothing
                    |modTime data files Hstat Hchanged Hread Hparse Hfiles].
  - by left.
  - right. left. by exists modTime, meta.
  - right. right. exists modTime. split; [done|]. split; [done|].
    split; [done|]. cbn [IndexPass.idx Index.Entries].
    unfold fileMeta at 1. cbn [Index.Files]. fold (fileMeta (IndexPass.idx st) fpath).
    intros [meta Hmeta]. unfold keptEntries. rewrite Hmeta.
    apply removeEntriesForFile_gone.
  - right. left.
    exists modTime, {| FileMetadata.FilePath := fpath;
                       FileMetadata.LastModified := modTime |}.
    split; [done|]. split; [|apply Hirrefl].
    unfold fileMeta. cbn. by rewrite lookup_insert_eq.
Qed.

(** A settled file stays settled through the iteration for another. *)
Lemma indexFile_keeps_settled (st st' : IndexPass.t) (fpath other : string) :
  other ≠ fpath →
  indexFile st fpath = Some st' →
  settled (IndexPass.idx st) other →
  settled (IndexPass.idx st') other.
Proof.
  intros Hne Hstep Hsettled.
  destruct (indexFile_other st st' fpath other Hstep Hne) as [Hentries Hmeta].
  unfold settled. by rewrite Hmeta, Hentries.
Qed.

Lemma indexFiles_cons (st : IndexPass.t) (fpath : string) (files : list string) :
  indexFiles st (fpath :: files)
  = indexFile st fpath ≫= (λ st', indexFiles st' files).
Proof.
  unfold indexFiles. cbn [foldl mbind option_bind].
  destruct (indexFile st fpath) as [st'|]; [done|].
  cbn. by induction files.
Qed.

Lemma indexFiles_settles (files done : list string) (st st' : IndexPass.t) :
  (∀ t, After t t = false) →
  Forall (settled (IndexPass.idx st)) done →
  indexFiles st files = Some st' →
  Forall (settled (IndexPass.idx st')) (done ++ files).
Proof.
  intros Hirrefl. revert done st.
  induction files as [|fpath files IH]; intros done st Hdone.
  - intros [= <-]. by rewrite app_nil_r.
  - rewrite indexFiles_cons.
    destruct (indexFile st fpath) as [st1|] eqn:Hstep; [|done].
    cbn [mbind option_bind]. intros Hrest.
    replace (done ++ fpath :: files) with ((done ++ [fpath]) ++ files)
      by (by rewrite <- app_assoc).
    apply (IH _ st1); [|done].
    apply Forall_app. split.
    + eapply Forall_impl; [exact Hdone|]. intros other Hother.
      destruct (decide (other = fpath)) as [->|Hne].
      * by apply (indexFile_settles st).
      * by apply (indexFile_keeps_settled st st1 fpath).
    + constructor; [|done]. by apply (indexFile_settles st).
Qed.

Lemma indexFiles_settled (files : list string) (st : IndexPass.t) :
  Forall (settled (IndexPass.idx st)) files →
  ∃ st', indexFiles st files = Some st'
         ∧ IndexPass.idx st' = IndexPass.idx st
         ∧ IndexPass.calls st' = IndexPass.calls st
         ∧ IndexPass.totalNew st' = IndexPass.totalNew st.
Proof.
  revert st. induction files as [|fpath files IH]; intros st Hall.
  - by exists st.
  - apply Forall_cons in Hall as [Hfpath Hfiles].
    destruct (indexFile_settled st fpath Hfpath)
      as (st1 & Hstep & Hidx & Hcalls & Hnew).
    rewrite indexFiles_cons, Hstep. cbn [mbind option_bind].
    rewrite <- Hidx in Hfiles.
    destruct (IH st1 Hfiles) as (st2 & Hrest & Hidx2 & Hcalls2 & Hnew2).
    exists st2. split; [done|]. split; [congruence|]. split; congruence.
Qed.

(** Running the file loop again over the same files, none of them
    modified in between, changes nothing in the index, indexes no file
    and sends nothing to the embedding service. *)
Theorem indexFiles_second_pass (st st1 : IndexPass.t) (files : list string) :
  (∀ t, After t t = false) →
  indexFiles st files = Some st1 →
  ∃ st2, indexFiles st1 files = Some st2
         ∧ IndexPass.idx st2 = IndexPass.idx st1
         ∧ IndexPass.calls st2 = IndexPass.calls st1
         ∧ IndexPass.totalNew st2 = IndexPass.totalNew st1.
Proof.
  intros Hirrefl Hpass. apply indexFiles_settled.
  by apply (indexFiles_settles files [] st st1 Hirrefl).
Qed.

End IndexingFacts.

(** ** Ranking and rehydration of semantic candidates *)

Section RehydrationFacts.
Context `{Runtime} `{IndexRuntime}.

Lemma embeddedEntries_elem (fpath : string) (calls : nat)
    (messages : list Message.t) (e : IndexEntry.t) :
  e ∈ embeddedEntries fpath calls messages →
  ∃ msg vec, msg ∈ messages ∧ e = entryFor fpath msg vec.
Proof.
  revert calls. induction messages as [|msg messages IH]; intros calls;
    cbn [embeddedEntries].
  - by intros ?%not_elem_of_nil.
  - destruct (Embed calls (embedText msg)) as [vec|].
    + intros [->|He]%elem_of_cons.
      * exists msg, vec. split; [by left | done].
      * destruct (IH _ He) as (msg' & vec' & Hmsg & ->).
        exists msg', vec'. split; [by right | done].
    + intros He. destruct (IH _ He) as (msg' & vec' & Hmsg & ->).
      exists msg', vec'. split; [by right | done].
Qed.

Lemma semanticAfter_contextAfter (opts : SearchOpts.t)
    (messages : list Message.t) (j : nat) :
  Z.of_nat j + 1 < 2 ^ 63 →
  semanticAfter opts messages (Z.of_nat j)
  = Some (contextAfter opts messages (Z.of_nat j)).
Proof.
  intros Hj. unfold semanticAfter, contextAfter.
  destruct (0 <? SearchOpts.After opts); [|done].
  rewrite (int_small (Z.of_nat j + 1)) by (unfold_pow2; lia).
  cbn zeta. replace (Z.of_nat j + 1 <? 0) with false
    by (symmetry; apply Z.ltb_ge; lia).
  by rewrite andb_false_r.
Qed.

(** The message built from the entry of a message of the parse, with
    the text of that message, is the message. *)
Lemma entryMessage_entryFor (fpath data : string) (msg : Message.t)
    (vec : list spec_float) :
  msg ∈ parseJSONL fpath data →
  withText (entryMessage (entryFor fpath msg vec)) (Message.Text msg) = msg.
Proof.
  intros Hmsg.
  pose proof (parseJSONL_wellFormed fpath data) as Hall.
  rewrite Forall_forall in Hall.
  destruct (Hall msg Hmsg) as (_ & Htype & _ & _ & _ & Hproject & Hpath).
  destruct msg. unfold withText, entryMessage, entryFor. cbn in *.
  congruence.
Qed.

(** An entry that the indexer wrote for a message of a file, looked up
    while the file is still as it was indexed, comes back as that very
    message: the full text instead of the preview, the ordinal, and the
    context windows that a regex search gives the message. *)
Theorem hydrate_current_entry (opts : SearchOpts.t) (fpath data : string)
    (calls : nat) (e : IndexEntry.t) (sim : spec_float) :
  ReadFile fpath = Some data →
  SearchOpts.Before opts < 2 ^ 63 →
  Z.of_nat (length (parseJSONL fpath data))
  + Z.max 0 (SearchOpts.After opts) < 2 ^ 63 →
  e ∈ embeddedEntries fpath calls (parseJSONL fpath data) →
  ∃ j msg,
    parseJSONL fpath data !! j = Some msg
    ∧ IndexEntry.MsgIndex e = Z.of_nat j
    ∧ hydrate opts {| scored.entry := e; scored.similarity := sim |}
      = Some {| Match.Message := msg;
                Match.ContextBefore :=
                  drop (j - Z.to_nat (SearchOpts.Before opts))
                       (take j (parseJSONL fpath data));
                Match.ContextAfter :=
                  take (Z.to_nat (SearchOpts.After opts))
                       (drop (S j) (parseJSONL fpath data));
                Match.Similarity := sim |}.
Proof.
  intros Hread HB HA (msg & vec & Hmsg & ->)%embeddedEntries_elem.
  pose proof (entryMessage_entryFor fpath data msg vec Hmsg) as Hback.
  apply list_elem_of_lookup_1 in Hmsg as [j Hj].
  exists j, msg. split; [done|].
  pose proof (lookup_lt_Some _ _ _ Hj) as Hlt.
  pose proof (parseJSONL_lookup_MsgIndex fpath data j msg Hj) as Hidx.
  split; [done|].
  unfold hydrate. cbn [scored.entry scored.similarity].
  change (IndexEntry.FilePath (entryFor fpath msg vec)) with fpath.
  change (IndexEntry.MsgIndex (entryFor fpath msg vec))
    with (Message.MsgIndex msg).
  rewrite Hread, Hidx. unfold fullText, goIndex.
  rewrite (proj2 (Z.ltb_lt _ _)) by lia.
  rewrite (proj2 (Z.ltb_ge _ _)) by lia.
  rewrite Nat2Z.id, Hj. cbn [mbind option_bind]. rewrite Hback.
  rewrite semanticAfter_contextAfter by (unfold_pow2; lia).
  cbn [mbind option_bind]. f_equal. f_equal.
  - apply contextBefore_spec; unfold_pow2; lia.
  - apply contextAfter_spec; unfold_pow2; lia.
Qed.

(** What a rehydrated match keeps of its candidate. *)
Definition matchOf (c : scored.t) (m : Match.t) : Prop :=
  Match.Similarity m = scored.similarity c
  ∧ Message.FilePath (Match.Message m) = IndexEntry.FilePath (scored.entry c)
  ∧ Message.MsgIndex (Match.Message m) = IndexEntry.MsgIndex (scored.entry c)
  ∧ Message.Role (Match.Message m) = IndexEntry.Role (scored.entry c)
  ∧ Message.Timestamp (Match.Message m)
    = IndexEntry.Timestamp (scored.entry c).

Lemma hydrate_matchOf (opts : SearchOpts.t) (c : scored.t) (m : Match.t) :
  hydrate opts c = Some m → matchOf c m.
Proof.
  unfold hydrate.
  destruct (ReadFile _) as [data|]; [|by intros [= <-]].
  unfold fullText.
  destruct (_ <? Z.of_nat _).
  - destruct (goIndex _ _) as [full|]; [|done]. cbn [mbind option_bind].
    destruct (semanticAfter _ _ _) as [after|]; [|done].
    by intros [= <-].
  - cbn [mbind option_bind].
    destruct (semanticAfter _ _ _) as [after|]; [|done].
    by intros [= <-].
Qed.

Lemma hydrate_is_Some (opts : SearchOpts.t) (c : scored.t) :
  0 ≤ IndexEntry.MsgIndex (scored.entry c) < 2 ^ 63 - 1 →
  is_Some (hydrate opts c).
Proof.
  intros Hidx. unfold hydrate.
  destruct (ReadFile _) as [data|]; [|by eexists].
  assert (Hafter : is_Some (semanticAfter opts
                     (parseJSONL (IndexEntry.FilePath (scored.entry c)) data)
                     (IndexEntry.MsgIndex (scored.entry c)))).
  { unfold semanticAfter. destruct (0 <? SearchOpts.After opts); [|by eexists].
    rewrite (int_small (_ + 1)) by (unfold_pow2; lia). cbn zeta.
    replace (IndexEntry.MsgIndex (scored.entry c) + 1 <? 0) with false
      by (symmetry; apply Z.ltb_ge; lia).
    rewrite andb_false_r. by eexists. }
  destruct Hafter as [after ->].
  unfold fullText, goIndex.
  destruct (_ <? Z.of_nat _) eqn:Hlen.
  - apply Z.ltb_lt in Hlen. rewrite (proj2 (Z.ltb_ge _ _)) by lia.
    destruct (lookup_lt_is_Some_2
                (parseJSONL (IndexEntry.FilePath (scored.entry c)) data)
                (Z.to_nat (IndexEntry.MsgIndex (scored.entry c))))
      as [full ->]; [lia|].
    by eexists.
  - by eexists.
Qed.

Lemma rankCandidates_take (opts : SearchOpts.t) (candidates : list scored.t) :
  rankCandidates opts candidates
  = take (Z.to_nat (semanticLimit opts))
         (sortSlice scored.t bySimilarity candidates).
Proof.
  unfold rankCandidates. cbn zeta.
  destruct (_ <? Z.of_nat _) eqn:Hlen; [done|].
  apply Z.ltb_ge in Hlen. rewrite take_ge; [done | lia].
Qed.

Lemma semanticLimit_pos (opts : SearchOpts.t) : 0 < semanticLimit opts.
Proof.
  unfold semanticLimit. destruct (_ <=? 0) eqn:Hlimit; [lia|].
  by apply Z.leb_gt in Hlimit.
Qed.

(** The ranked candidates are candidates, as many as there are up to the
    limit, and the limit is ten when the requested maximum is not
    positive; when the candidates are within the limit, none is lost. *)
Theorem rankCandidates_limit (opts : SearchOpts.t) (candidates : list scored.t) :
  Z.of_nat (length (rankCandidates opts candidates))
  = Z.min (Z.of_nat (length candidates))
          (if SearchOpts.MaxResults opts <=? 0 then 10
           else SearchOpts.MaxResults opts)
  ∧ (∀ c, c ∈ rankCandidates opts candidates → c ∈ candidates)
  ∧ (Z.of_nat (length candidates) ≤ semanticLimit opts →
     rankCandidates opts candidates ≡ₚ candidates).
Proof.
  fold (semanticLimit opts). rewrite rankCandidates_take.
  pose proof (semanticLimit_pos opts) as Hpos.
  pose proof (sortSlice_perm scored.t bySimilarity candidates) as Hperm.
  pose proof (Permutation_length Hperm) as Hlen.
  split; [|split].
  - rewrite length_take. lia.
  - intros c Hc. rewrite <- Hperm.
    by apply (elem_of_sublist _ _ _ Hc), sublist_take.
  - intros Hfew. rewrite take_ge; [done | lia].
Qed.

(** With ordinals as the indexer writes them, the conversion of the
    candidates never panics, also when session files have changed or
    disappeared since they were indexed: it returns one match for every
    ranked candidate, in order, with the candidate's similarity, file,
    ordinal, role and time stamp. *)
Theorem semanticMatches_total (opts : SearchOpts.t) (candidates : list scored.t) :
  Forall (λ c, 0 ≤ IndexEntry.MsgIndex (scored.entry c) < 2 ^ 63 - 1)
         candidates →
  ∃ matches,
    semanticMatches opts candidates = Some matches
    ∧ Forall2 matchOf (rankCandidates opts candidates) matches.
Proof.
  intros Hsane. unfold semanticMatches.
  destruct (length candidates =? 0)%nat eqn:Hlen.
  - apply Nat.eqb_eq, nil_length_inv in Hlen. subst candidates.
    exists []. split; [done|].
    rewrite rankCandidates_take.
    pose proof (sortSlice_perm scored.t bySimilarity []) as Hperm.
    apply Permutation_nil_r in Hperm. rewrite Hperm, take_nil. constructor.
  - assert (Hranked : Forall (λ c, is_Some (hydrate opts c))
                             (rankCandidates opts candidates)).
    { apply Forall_forall. intros c Hc. apply hydrate_is_Some.
      rewrite Forall_forall in Hsane. apply Hsane.
      rewrite rankCandidates_take in Hc.
      rewrite <- (sortSlice_perm scored.t bySimilarity candidates).
      by apply (elem_of_sublist _ _ _ Hc), sublist_take. }
    apply mapM_is_Some in Hranked as [matches Hmatches].
    exists matches. split; [done|].
    apply mapM_Some in Hmatches.
    eapply Forall2_impl; [exact Hmatches|].
    intros c m. apply hydrate_matchOf.
Qed.

End RehydrationFacts.

(** ** The further properties on sample transcripts *)

Lemma parseJSONL_no_adjacent_duplicates_witness :
  sameTurn (Message.withMsgIndex
              (demoRecord "user" "2024-05-01T10:00:00" "ping") 0)
           (Message.withMsgIndex
              (demoRecord "assistant" "2024-05-01T10:00:00" "pong") 1)
  = false.
Proof.
  apply (@parseJSONL_no_adjacent_duplicates (sampleRuntime []) demoPath
           quickExchange 0).
  - vm_compute. reflexivity.
  - vm_compute. reflexivity.
Defined.

(** A line that is not JSON and a record of another type, between a
    question and its answer. *)
Definition skippedLines : string :=
  Sample.transcript
    ["not a record";
     Sample.recordLine "system" "2024-05-01T10:00:02.000Z" "compacted"].

Lemma parseJSONL_ignores_skipped_lines_witness :
  @parseJSONL (sampleRuntime []) demoPath
    (Sample.recordLine "user" "2024-05-01T10:00:00.000Z" "ping"
     +:+ String Bytes.LF
           (skippedLines
            +:+ String Bytes.LF
                  (Sample.recordLine "assistant" "2024-05-01T10:00:05.000Z"
                                     "pong")))
  = @parseJSONL (sampleRuntime []) demoPath
      (Sample.recordLine "user" "2024-05-01T10:00:00.000Z" "ping"
       +:+ String Bytes.LF
             (Sample.recordLine "assistant" "2024-05-01T10:00:05.000Z"
                                "pong")).
Proof.
  apply (@parseJSONL_ignores_skipped_lines (sampleRuntime []) demoPath).
  apply (@bool_decide_unpack _ (Forall_dec _ _)). vm_compute. reflexivity.
Defined.

(** One session of three messages; the answer holds the word searched. *)
Definition exchangeFiles : list (string * string) :=
  [(demoPath, quickExchange)].

Definition contextOpts : SearchOpts.t :=
  {| SearchOpts.Role := "both"; SearchOpts.MaxResults := 10;
     SearchOpts.MaxDays := 7; SearchOpts.Before := 1; SearchOpts.After := 1;
     SearchOpts.ListOnly := false |}.

Definition pongMatch : Match.t :=
  {| Match.Message :=
       Message.withMsgIndex
         (demoRecord "assistant" "2024-05-01T10:00:00" "pong") 1;
     Match.ContextBefore :=
       [Message.withMsgIndex
          (demoRecord "user" "2024-05-01T10:00:00" "ping") 0];
     Match.ContextAfter :=
       [Message.withMsgIndex
          (demoRecord "user" "2024-05-01T10:00:00" "ping again") 2];
     Match.Similarity := float32_zero |}.

Lemma searchFileTracked_exact_witness :
  Match.Message
    <$> (@searchFileTracked (sampleRuntime exchangeFiles) demoPath
           (demoRegexp "pong") ["pong"] contextOpts).1
  = filter (λ msg, @selects (sampleRuntime exchangeFiles) (demoRegexp "pong")
                     contextOpts msg = true)
           (@parseJSONL (sampleRuntime exchangeFiles) demoPath quickExchange)
  ∧ (@searchFileTracked (sampleRuntime exchangeFiles) demoPath
       (demoRegexp "pong") ["pong"] contextOpts).2 = false.
Proof.
  apply (@searchFileTracked_exact (sampleRuntime exchangeFiles)).
  - vm_compute. reflexivity.
  - vm_compute. reflexivity.
Defined.

Lemma searchFileTracked_context_witness :
  ∃ j,
    @parseJSONL (sampleRuntime exchangeFiles) demoPath quickExchange !! j
    = Some (Match.Message pongMatch)
    ∧ Message.MsgIndex (Match.Message pongMatch) = Z.of_nat j
    ∧ Match.ContextBefore pongMatch
      = drop (j - Z.to_nat (SearchOpts.Before contextOpts))
             (take j (@parseJSONL (sampleRuntime exchangeFiles) demoPath
                        quickExchange))
    ∧ Match.ContextAfter pongMatch
      = take (Z.to_nat (SearchOpts.After contextOpts))
             (drop (S j) (@parseJSONL (sampleRuntime exchangeFiles) demoPath
                            quickExchange)).
Proof.
  apply (@searchFileTracked_context (sampleRuntime exchangeFiles) demoPath
           quickExchange (demoRegexp "pong") ["pong"] contextOpts pongMatch).
  - vm_compute. reflexivity.
  - vm_compute. reflexivity.
  - vm_compute. reflexivity.
  - assert (Hrun : (@searchFileTracked (sampleRuntime exchangeFiles) demoPath
                      (demoRegexp "pong") ["pong"] contextOpts).1
                   = [pongMatch]) by (vm_compute; reflexivity).
    rewrite Hrun. by left.
Defined.


(** The search for [deploy] in [apartFiles] with a limit of [maxResults]
    returns [matches], for the workers' results arriving in file order. *)
Lemma deploy_run (maxResults : Z) (matches : list Match.t) :
  @finish (sampleRuntime apartFiles) (demoOpts maxResults)
     [demoPath; otherPath]
     (countSkipped (deployResults apartFiles maxResults))
     (sent (deployResults apartFiles maxResults))
  = SearchOk matches apartStats →
  @regexSearch (sampleRuntime apartFiles) "deploy" demoRoot
     (demoOpts maxResults) (SearchOk matches apartStats).
Proof.
  intros <-.
  apply (@regexSearch_fan_in (sampleRuntime apartFiles) "deploy" demoRoot
           (demoOpts maxResults) (demoRegexp "deploy") [demoPath; otherPath]).
  - vm_compute. reflexivity.
  - vm_compute. reflexivity.
  - reflexivity.
Defined.

Lemma regexSearch_sound_witness :
  ∃ re files,
    @Compile (sampleRuntime apartFiles) ("(?i)" +:+ "deploy") = Some re
    ∧ @findSessionFiles (sampleRuntime apartFiles) demoRoot 7 = (files, true)
    ∧ Forall (λ m, @selects (sampleRuntime apartFiles) re (demoOpts 1)
                     (Match.Message m) = true
                   ∧ Message.FilePath (Match.Message m) ∈ files)
             apartNewest.
Proof.
  apply (@regexSearch_sound (sampleRuntime apartFiles) "deploy" demoRoot
           (demoOpts 1) apartNewest apartStats).
  apply deploy_run. vm_compute. reflexivity.
Defined.


Lemma regexSearch_non_positive_limit_witness :
  SearchOpts.MaxResults (demoOpts 0) = 0 ∧ @nil Match.t = [].
Proof.
  apply (@regexSearch_non_positive_limit (sampleRuntime apartFiles) "deploy"
           demoRoot (demoOpts 0) (SearchOk [] apartStats)).
  - vm_compute. discriminate.
  - apply deploy_run. vm_compute. reflexivity.
Defined.

Lemma regexSearch_stats_witness :
  0 ≤ SearchStats.PrefilterSkipped apartStats
    ≤ SearchStats.FilesTotal apartStats
  ∧ SearchStats.PrefilterSkipped apartStats
    + SearchStats.RegexSearched apartStats
    = SearchStats.FilesTotal apartStats
  ∧ (@extractPrefilterLiterals (sampleRuntime apartFiles) "deploy" = [] →
     SearchStats.PrefilterSkipped apartStats = 0).
Proof.
  apply (@regexSearch_stats (sampleRuntime apartFiles) "deploy" demoRoot
           (demoOpts 1) apartNewest apartStats).
  - apply deploy_run. vm_compute. reflexivity.
  - vm_compute. reflexivity.
Defined.

(** A file system with modification times, and an embedding service
    that fails on its third call. *)
Definition sampleIndexRuntime (mtimes : list (string * Z)) : IndexRuntime :=
  {| Stat := λ path,
       snd <$> List.find (λ f, String.eqb (fst f) path) mtimes;
     After := λ t u, u <? t;
     Embed := λ calls _,
       if (calls =? 2)%nat then None else Some [Float.zero; Float.zero] |}.

Definition apartTimes : list (string * Z) :=
  [(demoPath, 100); (otherPath, 200)].

Definition freshPass : IndexPass.t :=
  {| IndexPass.idx := emptyIndex "demo"; IndexPass.calls := 0;
     IndexPass.totalNew := 0; IndexPass.totalSkipped := 0 |}.

(** The state after the iteration for [demoPath], and after the whole
    pass over [apartFiles]. *)
Definition demoIndexed : IndexPass.t :=
  default freshPass
    (@indexFile (sampleRuntime apartFiles) (sampleIndexRuntime apartTimes)
       freshPass demoPath).

Definition bothIndexed : IndexPass.t :=
  default freshPass
    (@indexFiles (sampleRuntime apartFiles) (sampleIndexRuntime apartTimes)
       freshPass [demoPath; otherPath]).


Lemma indexFile_replaces_entries_witness :
  filter (λ e, IndexEntry.FilePath e = demoPath)
         (Index.Entries (IndexPass.idx demoIndexed))
  = @embeddedEntries (sampleIndexRuntime apartTimes) demoPath
      (IndexPass.calls freshPass)
      (@parseJSONL (sampleRuntime apartFiles) demoPath
         (Sample.transcript
            [Sample.recordLine "user" "2024-05-01T10:00:00.000Z"
                               "deploy alpha"]))
  ∧ fileMeta (IndexPass.idx demoIndexed) demoPath
    = Some {| FileMetadata.FilePath := demoPath;
              FileMetadata.LastModified := 100 |}
  ∧ IndexPass.totalNew demoIndexed = int (IndexPass.totalNew freshPass + 1).
Proof.
  apply (@indexFile_replaces_entries (sampleRuntime apartFiles)
           (sampleIndexRuntime apartTimes) freshPass demoIndexed demoPath).
  - intros e He. by apply not_elem_of_nil in He.
  - vm_compute. reflexivity.
  - intros meta Hmeta. vm_compute in Hmeta. discriminate.
  - vm_compute. reflexivity.
  - vm_compute. discriminate.
  - vm_compute. reflexivity.
Defined.

Lemma indexFile_invariants_witness :
  recorded (IndexPass.idx demoIndexed)
  ∧ Forall (λ e, (String.length (IndexEntry.Preview e) ≤ previewLen)%nat)
           (Index.Entries (IndexPass.idx demoIndexed)).
Proof.
  apply (@indexFile_invariants (sampleRuntime apartFiles)
           (sampleIndexRuntime apartTimes) freshPass demoIndexed demoPath).
  - intros e He. by apply not_elem_of_nil in He.
  - constructor.
  - vm_compute. reflexivity.
Defined.

Lemma indexFiles_second_pass_witness :
  ∃ st2,
    @indexFiles (sampleRuntime apartFiles) (sampleIndexRuntime apartTimes)
      bothIndexed [demoPath; otherPath] = Some st2
    ∧ IndexPass.idx st2 = IndexPass.idx bothIndexed
    ∧ IndexPass.calls st2 = IndexPass.calls bothIndexed
    ∧ IndexPass.totalNew st2 = IndexPass.totalNew bothIndexed.
Proof.
  apply (@indexFiles_second_pass (sampleRuntime apartFiles)
           (sampleIndexRuntime apartTimes) freshPass bothIndexed
           [demoPath; otherPath]).
  - intros t. apply Z.ltb_irrefl.
  - vm_compute. reflexivity.
Defined.

(** The entry that the indexer writes for the answer of [quickExchange],
    and a candidate for it. *)
Definition pongEntry : IndexEntry.t :=
  entryFor demoPath (Match.Message pongMatch) [Float.zero; Float.zero].

Definition pongSimilarity : spec_float :=
  Eval vm_compute in Float.const32 1 2.

Definition pongCandidate : scored.t :=
  {| scored.entry := pongEntry; scored.similarity := pongSimilarity |}.

Lemma hydrate_current_entry_witness :
  ∃ j msg,
    @parseJSONL (sampleRuntime exchangeFiles) demoPath quickExchange !! j
    = Some msg
    ∧ IndexEntry.MsgIndex pongEntry = Z.of_nat j
    ∧ @hydrate (sampleRuntime exchangeFiles) contextOpts pongCandidate
      = Some {| Match.Message := msg;
                Match.ContextBefore :=
                  drop (j - Z.to_nat (SearchOpts.Before contextOpts))
                       (take j (@parseJSONL (sampleRuntime exchangeFiles)
                                  demoPath quickExchange));
                Match.ContextAfter :=
                  take (Z.to_nat (SearchOpts.After contextOpts))
                       (drop (S j) (@parseJSONL (sampleRuntime exchangeFiles)
                                      demoPath quickExchange));
                Match.Similarity := pongSimilarity |}.
Proof.
  apply (@hydrate_current_entry (sampleRuntime exchangeFiles)
           (sampleIndexRuntime [(demoPath, 100)]) contextOpts demoPath
           quickExchange 0 pongEntry pongSimilarity).
  - vm_compute. reflexivity.
  - vm_compute. reflexivity.
  - vm_compute. reflexivity.
  - apply list_elem_of_lookup_2 with 1%nat. vm_compute. reflexivity.
Defined.

Lemma semanticMatches_total_witness :
  ∃ matches,
    @semanticMatches (sampleRuntime exchangeFiles) contextOpts [pongCandidate]
    = Some matches
    ∧ Forall2 matchOf
        (@rankCandidates (sampleRuntime exchangeFiles) contextOpts
           [pongCandidate])
        matches.
Proof.
  apply (@semanticMatches_total (sampleRuntime exchangeFiles) contextOpts
           [pongCandidate]).
  constructor; [|constructor].
  split; vm_compute; [discriminate | reflexivity].
Defined.
